(** * github_knowledge_builder: the single-repository aggregation routine

    A shallow embedding of [generate_repo_knowledge_file]
    (src/github_knowledge_builder.py) and of the library functions it calls
    ([os.walk], [os.path.splitext], [str.lower], [str.lstrip],
    [str.encode]), followed by the properties of the routine.

    Conventions of the embedding.
    - A Python [str] is the list of its code points ([pystr]).  Encoding to
      UTF-8 fails on a lone surrogate (U+D800..U+DFFF), as in Python; such
      code points do occur in file names ([os.walk] decodes undecodable
      bytes of a name with the [surrogateescape] handler).
    - [str.lower] is CPython's, over all of Unicode, with the case tables
      of Unicode 14.0.0 (CPython 3.11).
    - The repository is a tree ([dir]) without symbolic links; a file
      carries what [os.path.getsize] and [open(...).read()] do on it, each
      of which may raise.
    - The local variables of the routine form a record ([state]) threaded
      through the loops.  The record also carries a [trace] of what the run
      did (directories yielded by the walk, files reached, files sized,
      opened and appended, budget stops), which is ghost: no decision reads
      it.
    - [print] calls are taken to succeed and are not modelled, apart from
      the two budget messages, which appear as trace events.
    - Paths are POSIX paths ([posixpath]); a name listed by [os.walk] holds
      no separator, and then [ntpath.splitext] agrees. *)

From Stdlib Require Import String Ascii DecimalString.
From Stdlib Require Import List ZArith NArith Bool Lia Arith.
Import ListNotations.

Local Open Scope Z_scope.
#[local] Set Warnings "-register-all".

(** ** Strings *)

Definition char := N.
Definition pystr := list char.

(** A string literal of the source (ASCII only). *)
Definition lit (s : string) : pystr :=
  map N_of_ascii (list_ascii_of_string s).

Definition NL : pystr := [10%N].
Definition DOT : char := 46%N.
Definition SLASH : char := 47%N.

Fixpoint str_eqb (a b : pystr) : bool :=
  match a, b with
  | [], [] => true
  | x :: a', y :: b' => N.eqb x y && str_eqb a' b'
  | _, _ => false
  end.

(** [x in l] for a list of strings. *)
Definition py_in (x : pystr) (l : list pystr) : bool :=
  existsb (str_eqb x) l.

(** ["".join(l)] *)
Definition join (l : list pystr) : pystr := concat l.

(** *** [str.lower]

    CPython lower-cases a string one code point at a time
    (Objects/unicodeobject.c, [do_lower]): a capital sigma (U+03A3)
    becomes a final or a medial small sigma by its context
    ([handle_capital_sigma]), and every other code point is replaced by its
    full lower-case mapping ([_PyUnicode_ToLowerFull]), which is one code
    point, except for U+0130, which gives two.  The three tables are those
    of the Unicode Character Database 14.0.0, the version of CPython 3.11. *)

(** The ASCII letters. *)
Definition lower_char (c : char) : char :=
  if (65 <=? c)%N && (c <=? 90)%N then (c + 32)%N else c.

(** Lower-case mappings outside ASCII.  An entry [(first, last, step,
    target)] maps [first] to [target], [first + step] to [target + step],
    and so on up to [last]. *)
Definition lowercase_table : list (N * N * N * N) :=
  [(192, 214, 1, 224); (216, 222, 1, 248); (256, 302, 2, 257);
   (306, 310, 2, 307); (313, 327, 2, 314); (330, 374, 2, 331);
   (376, 376, 1, 255); (377, 381, 2, 378); (385, 385, 1, 595);
   (386, 388, 2, 387); (390, 390, 1, 596); (391, 391, 1, 392);
   (393, 394, 1, 598); (395, 395, 1, 396); (398, 398, 1, 477);
   (399, 399, 1, 601); (400, 400, 1, 603); (401, 401, 1, 402);
   (403, 403, 1, 608); (404, 404, 1, 611); (406, 406, 1, 617);
   (407, 407, 1, 616); (408, 408, 1, 409); (412, 412, 1, 623);
   (413, 413, 1, 626); (415, 415, 1, 629); (416, 420, 2, 417);
   (422, 422, 1, 640); (423, 423, 1, 424); (425, 425, 1, 643);
   (428, 428, 1, 429); (430, 430, 1, 648); (431, 431, 1, 432);
   (433, 434, 1, 650); (435, 437, 2, 436); (439, 439, 1, 658);
   (440, 440, 1, 441); (444, 444, 1, 445); (452, 452, 1, 454);
   (453, 453, 1, 454); (455, 455, 1, 457); (456, 456, 1, 457);
   (458, 458, 1, 460); (459, 475, 2, 460); (478, 494, 2, 479);
   (497, 497, 1, 499); (498, 500, 2, 499); (502, 502, 1, 405);
   (503, 503, 1, 447); (504, 542, 2, 505); (544, 544, 1, 414);
   (546, 562, 2, 547); (570, 570, 1, 11365); (571, 571, 1, 572);
   (573, 573, 1, 410); (574, 574, 1, 11366); (577, 577, 1, 578);
   (579, 579, 1, 384); (580, 580, 1, 649); (581, 581, 1, 652);
   (582, 590, 2, 583); (880, 882, 2, 881); (886, 886, 1, 887);
   (895, 895, 1, 1011); (902, 902, 1, 940); (904, 906, 1, 941);
   (908, 908, 1, 972); (910, 911, 1, 973); (913, 929, 1, 945);
   (931, 939, 1, 963); (975, 975, 1, 983); (984, 1006, 2, 985);
   (1012, 1012, 1, 952); (1015, 1015, 1, 1016); (1017, 1017, 1, 1010);
   (1018, 1018, 1, 1019); (1021, 1023, 1, 891); (1024, 1039, 1, 1104);
   (1040, 1071, 1, 1072); (1120, 1152, 2, 1121); (1162, 1214, 2, 1163);
   (1216, 1216, 1, 1231); (1217, 1229, 2, 1218); (1232, 1326, 2, 1233);
   (1329, 1366, 1, 1377); (4256, 4293, 1, 11520); (4295, 4295, 1, 11559);
   (4301, 4301, 1, 11565); (5024, 5103, 1, 43888); (5104, 5109, 1, 5112);
   (7312, 7354, 1, 4304); (7357, 7359, 1, 4349); (7680, 7828, 2, 7681);
   (7838, 7838, 1, 223); (7840, 7934, 2, 7841); (7944, 7951, 1, 7936);
   (7960, 7965, 1, 7952); (7976, 7983, 1, 7968); (7992, 7999, 1, 7984);
   (8008, 8013, 1, 8000); (8025, 8031, 2, 8017); (8040, 8047, 1, 8032);
   (8072, 8079, 1, 8064); (8088, 8095, 1, 8080); (8104, 8111, 1, 8096);
   (8120, 8121, 1, 8112); (8122, 8123, 1, 8048); (8124, 8124, 1, 8115);
   (8136, 8139, 1, 8050); (8140, 8140, 1, 8131); (8152, 8153, 1, 8144);
   (8154, 8155, 1, 8054); (8168, 8169, 1, 8160); (8170, 8171, 1, 8058);
   (8172, 8172, 1, 8165); (8184, 8185, 1, 8056); (8186, 8187, 1, 8060);
   (8188, 8188, 1, 8179); (8486, 8486, 1, 969); (8490, 8490, 1, 107);
   (8491, 8491, 1, 229); (8498, 8498, 1, 8526); (8544, 8559, 1, 8560);
   (8579, 8579, 1, 8580); (9398, 9423, 1, 9424); (11264, 11311, 1, 11312);
   (11360, 11360, 1, 11361); (11362, 11362, 1, 619); (11363, 11363, 1, 7549);
   (11364, 11364, 1, 637); (11367, 11371, 2, 11368); (11373, 11373, 1, 593);
   (11374, 11374, 1, 625); (11375, 11375, 1, 592); (11376, 11376, 1, 594);
   (11378, 11378, 1, 11379); (11381, 11381, 1, 11382);
   (11390, 11391, 1, 575); (11392, 11490, 2, 11393);
   (11499, 11501, 2, 11500); (11506, 11506, 1, 11507);
   (42560, 42604, 2, 42561); (42624, 42650, 2, 42625);
   (42786, 42798, 2, 42787); (42802, 42862, 2, 42803);
   (42873, 42875, 2, 42874); (42877, 42877, 1, 7545);
   (42878, 42886, 2, 42879); (42891, 42891, 1, 42892);
   (42893, 42893, 1, 613); (42896, 42898, 2, 42897);
   (42902, 42920, 2, 42903); (42922, 42922, 1, 614); (42923, 42923, 1, 604);
   (42924, 42924, 1, 609); (42925, 42925, 1, 620); (42926, 42926, 1, 618);
   (42928, 42928, 1, 670); (42929, 42929, 1, 647); (42930, 42930, 1, 669);
   (42931, 42931, 1, 43859); (42932, 42946, 2, 42933);
   (42948, 42948, 1, 42900); (42949, 42949, 1, 642); (42950, 42950, 1, 7566);
   (42951, 42953, 2, 42952); (42960, 42960, 1, 42961);
   (42966, 42968, 2, 42967); (42997, 42997, 1, 42998);
   (65313, 65338, 1, 65345); (66560, 66599, 1, 66600);
   (66736, 66771, 1, 66776); (66928, 66938, 1, 66967);
   (66940, 66954, 1, 66979); (66956, 66962, 1, 66995);
   (66964, 66965, 1, 67003); (68736, 68786, 1, 68800);
   (71840, 71871, 1, 71872); (93760, 93791, 1, 93792);
   (125184, 125217, 1, 125218)]%N.

(** The code points with the property [Cased], as ranges. *)
Definition cased_table : list (N * N) :=
  [(65, 90); (97, 122); (170, 170); (181, 181); (186, 186); (192, 214);
   (216, 246); (248, 442); (444, 447); (452, 659); (661, 696); (704, 705);
   (736, 740); (837, 837); (880, 883); (886, 887); (890, 893); (895, 895);
   (902, 902); (904, 906); (908, 908); (910, 929); (931, 1013); (1015, 1153);
   (1162, 1327); (1329, 1366); (1376, 1416); (4256, 4293); (4295, 4295);
   (4301, 4301); (4304, 4346); (4349, 4351); (5024, 5109); (5112, 5117);
   (7296, 7304); (7312, 7354); (7357, 7359); (7424, 7615); (7680, 7957);
   (7960, 7965); (7968, 8005); (8008, 8013); (8016, 8023); (8025, 8025);
   (8027, 8027); (8029, 8029); (8031, 8061); (8064, 8116); (8118, 8124);
   (8126, 8126); (8130, 8132); (8134, 8140); (8144, 8147); (8150, 8155);
   (8160, 8172); (8178, 8180); (8182, 8188); (8305, 8305); (8319, 8319);
   (8336, 8348); (8450, 8450); (8455, 8455); (8458, 8467); (8469, 8469);
   (8473, 8477); (8484, 8484); (8486, 8486); (8488, 8488); (8490, 8493);
   (8495, 8500); (8505, 8505); (8508, 8511); (8517, 8521); (8526, 8526);
   (8544, 8575); (8579, 8580); (9398, 9449); (11264, 11492); (11499, 11502);
   (11506, 11507); (11520, 11557); (11559, 11559); (11565, 11565);
   (42560, 42605); (42624, 42653); (42786, 42887); (42891, 42894);
   (42896, 42954); (42960, 42961); (42963, 42963); (42965, 42969);
   (42997, 42998); (43000, 43002); (43824, 43866); (43868, 43880);
   (43888, 43967); (64256, 64262); (64275, 64279); (65313, 65338);
   (65345, 65370); (66560, 66639); (66736, 66771); (66776, 66811);
   (66928, 66938); (66940, 66954); (66956, 66962); (66964, 66965);
   (66967, 66977); (66979, 66993); (66995, 67001); (67003, 67004);
   (67456, 67456); (67459, 67461); (67463, 67504); (67506, 67514);
   (68736, 68786); (68800, 68850); (71840, 71903); (93760, 93823);
   (119808, 119892); (119894, 119964); (119966, 119967); (119970, 119970);
   (119973, 119974); (119977, 119980); (119982, 119993); (119995, 119995);
   (119997, 120003); (120005, 120069); (120071, 120074); (120077, 120084);
   (120086, 120092); (120094, 120121); (120123, 120126); (120128, 120132);
   (120134, 120134); (120138, 120144); (120146, 120485); (120488, 120512);
   (120514, 120538); (120540, 120570); (120572, 120596); (120598, 120628);
   (120630, 120654); (120656, 120686); (120688, 120712); (120714, 120744);
   (120746, 120770); (120772, 120779); (122624, 122633); (122635, 122654);
   (125184, 125251); (127280, 127305); (127312, 127337); (127344, 127369)]%N.

(** The code points with the property [Case_Ignorable], as ranges. *)
Definition case_ignorable_table : list (N * N) :=
  [(39, 39); (46, 46); (58, 58); (94, 94); (96, 96); (168, 168); (173, 173);
   (175, 175); (180, 180); (183, 184); (688, 879); (884, 885); (890, 890);
   (900, 901); (903, 903); (1155, 1161); (1369, 1369); (1375, 1375);
   (1425, 1469); (1471, 1471); (1473, 1474); (1476, 1477); (1479, 1479);
   (1524, 1524); (1536, 1541); (1552, 1562); (1564, 1564); (1600, 1600);
   (1611, 1631); (1648, 1648); (1750, 1757); (1759, 1768); (1770, 1773);
   (1807, 1807); (1809, 1809); (1840, 1866); (1958, 1968); (2027, 2037);
   (2042, 2042); (2045, 2045); (2070, 2093); (2137, 2139); (2184, 2184);
   (2192, 2193); (2200, 2207); (2249, 2306); (2362, 2362); (2364, 2364);
   (2369, 2376); (2381, 2381); (2385, 2391); (2402, 2403); (2417, 2417);
   (2433, 2433); (2492, 2492); (2497, 2500); (2509, 2509); (2530, 2531);
   (2558, 2558); (2561, 2562); (2620, 2620); (2625, 2626); (2631, 2632);
   (2635, 2637); (2641, 2641); (2672, 2673); (2677, 2677); (2689, 2690);
   (2748, 2748); (2753, 2757); (2759, 2760); (2765, 2765); (2786, 2787);
   (2810, 2815); (2817, 2817); (2876, 2876); (2879, 2879); (2881, 2884);
   (2893, 2893); (2901, 2902); (2914, 2915); (2946, 2946); (3008, 3008);
   (3021, 3021); (3072, 3072); (3076, 3076); (3132, 3132); (3134, 3136);
   (3142, 3144); (3146, 3149); (3157, 3158); (3170, 3171); (3201, 3201);
   (3260, 3260); (3263, 3263); (3270, 3270); (3276, 3277); (3298, 3299);
   (3328, 3329); (3387, 3388); (3393, 3396); (3405, 3405); (3426, 3427);
   (3457, 3457); (3530, 3530); (3538, 3540); (3542, 3542); (3633, 3633);
   (3636, 3642); (3654, 3662); (3761, 3761); (3764, 3772); (3782, 3782);
   (3784, 3789); (3864, 3865); (3893, 3893); (3895, 3895); (3897, 3897);
   (3953, 3966); (3968, 3972); (3974, 3975); (3981, 3991); (3993, 4028);
   (4038, 4038); (4141, 4144); (4146, 4151); (4153, 4154); (4157, 4158);
   (4184, 4185); (4190, 4192); (4209, 4212); (4226, 4226); (4229, 4230);
   (4237, 4237); (4253, 4253); (4348, 4348); (4957, 4959); (5906, 5908);
   (5938, 5939); (5970, 5971); (6002, 6003); (6068, 6069); (6071, 6077);
   (6086, 6086); (6089, 6099); (6103, 6103); (6109, 6109); (6155, 6159);
   (6211, 6211); (6277, 6278); (6313, 6313); (6432, 6434); (6439, 6440);
   (6450, 6450); (6457, 6459); (6679, 6680); (6683, 6683); (6742, 6742);
   (6744, 6750); (6752, 6752); (6754, 6754); (6757, 6764); (6771, 6780);
   (6783, 6783); (6823, 6823); (6832, 6862); (6912, 6915); (6964, 6964);
   (6966, 6970); (6972, 6972); (6978, 6978); (7019, 7027); (7040, 7041);
   (7074, 7077); (7080, 7081); (7083, 7085); (7142, 7142); (7144, 7145);
   (7149, 7149); (7151, 7153); (7212, 7219); (7222, 7223); (7288, 7293);
   (7376, 7378); (7380, 7392); (7394, 7400); (7405, 7405); (7412, 7412);
   (7416, 7417); (7468, 7530); (7544, 7544); (7579, 7679); (8125, 8125);
   (8127, 8129); (8141, 8143); (8157, 8159); (8173, 8175); (8189, 8190);
   (8203, 8207); (8216, 8217); (8228, 8228); (8231, 8231); (8234, 8238);
   (8288, 8292); (8294, 8303); (8305, 8305); (8319, 8319); (8336, 8348);
   (8400, 8432); (11388, 11389); (11503, 11505); (11631, 11631);
   (11647, 11647); (11744, 11775); (11823, 11823); (12293, 12293);
   (12330, 12333); (12337, 12341); (12347, 12347); (12441, 12446);
   (12540, 12542); (40981, 40981); (42232, 42237); (42508, 42508);
   (42607, 42610); (42612, 42621); (42623, 42623); (42652, 42655);
   (42736, 42737); (42752, 42785); (42864, 42864); (42888, 42890);
   (42994, 42996); (43000, 43001); (43010, 43010); (43014, 43014);
   (43019, 43019); (43045, 43046); (43052, 43052); (43204, 43205);
   (43232, 43249); (43263, 43263); (43302, 43309); (43335, 43345);
   (43392, 43394); (43443, 43443); (43446, 43449); (43452, 43453);
   (43471, 43471); (43493, 43494); (43561, 43566); (43569, 43570);
   (43573, 43574); (43587, 43587); (43596, 43596); (43632, 43632);
   (43644, 43644); (43696, 43696); (43698, 43700); (43703, 43704);
   (43710, 43711); (43713, 43713); (43741, 43741); (43756, 43757);
   (43763, 43764); (43766, 43766); (43867, 43871); (43881, 43883);
   (44005, 44005); (44008, 44008); (44013, 44013); (64286, 64286);
   (64434, 64450); (65024, 65039); (65043, 65043); (65056, 65071);
   (65106, 65106); (65109, 65109); (65279, 65279); (65287, 65287);
   (65294, 65294); (65306, 65306); (65342, 65342); (65344, 65344);
   (65392, 65392); (65438, 65439); (65507, 65507); (65529, 65531);
   (66045, 66045); (66272, 66272); (66422, 66426); (67456, 67461);
   (67463, 67504); (67506, 67514); (68097, 68099); (68101, 68102);
   (68108, 68111); (68152, 68154); (68159, 68159); (68325, 68326);
   (68900, 68903); (69291, 69292); (69446, 69456); (69506, 69509);
   (69633, 69633); (69688, 69702); (69744, 69744); (69747, 69748);
   (69759, 69761); (69811, 69814); (69817, 69818); (69821, 69821);
   (69826, 69826); (69837, 69837); (69888, 69890); (69927, 69931);
   (69933, 69940); (70003, 70003); (70016, 70017); (70070, 70078);
   (70089, 70092); (70095, 70095); (70191, 70193); (70196, 70196);
   (70198, 70199); (70206, 70206); (70367, 70367); (70371, 70378);
   (70400, 70401); (70459, 70460); (70464, 70464); (70502, 70508);
   (70512, 70516); (70712, 70719); (70722, 70724); (70726, 70726);
   (70750, 70750); (70835, 70840); (70842, 70842); (70847, 70848);
   (70850, 70851); (71090, 71093); (71100, 71101); (71103, 71104);
   (71132, 71133); (71219, 71226); (71229, 71229); (71231, 71232);
   (71339, 71339); (71341, 71341); (71344, 71349); (71351, 71351);
   (71453, 71455); (71458, 71461); (71463, 71467); (71727, 71735);
   (71737, 71738); (71995, 71996); (71998, 71998); (72003, 72003);
   (72148, 72151); (72154, 72155); (72160, 72160); (72193, 72202);
   (72243, 72248); (72251, 72254); (72263, 72263); (72273, 72278);
   (72281, 72283); (72330, 72342); (72344, 72345); (72752, 72758);
   (72760, 72765); (72767, 72767); (72850, 72871); (72874, 72880);
   (72882, 72883); (72885, 72886); (73009, 73014); (73018, 73018);
   (73020, 73021); (73023, 73029); (73031, 73031); (73104, 73105);
   (73109, 73109); (73111, 73111); (73459, 73460); (78896, 78904);
   (92912, 92916); (92976, 92982); (92992, 92995); (94031, 94031);
   (94095, 94111); (94176, 94177); (94179, 94180); (110576, 110579);
   (110581, 110587); (110589, 110590); (113821, 113822); (113824, 113827);
   (118528, 118573); (118576, 118598); (119143, 119145); (119155, 119170);
   (119173, 119179); (119210, 119213); (119362, 119364); (121344, 121398);
   (121403, 121452); (121461, 121461); (121476, 121476); (121499, 121503);
   (121505, 121519); (122880, 122886); (122888, 122904); (122907, 122913);
   (122915, 122916); (122918, 122922); (123184, 123197); (123566, 123566);
   (123628, 123631); (125136, 125142); (125252, 125259); (127995, 127999);
   (917505, 917505); (917536, 917631); (917760, 917999)]%N.

Fixpoint lowercase_lookup (t : list (N * N * N * N)) (c : char)
  : option char :=
  match t with
  | [] => None
  | (first, last, step, target) :: t' =>
      if (first <=? c)%N && (c <=? last)%N && ((c - first) mod step =? 0)%N
      then Some (target + (c - first))%N
      else lowercase_lookup t' c
  end.

Definition in_ranges (t : list (N * N)) (c : char) : bool :=
  existsb (fun r => (fst r <=? c)%N && (c <=? snd r)%N) t.

Definition is_cased (c : char) : bool := in_ranges cased_table c.
Definition is_case_ignorable (c : char) : bool :=
  in_ranges case_ignorable_table c.

(** [_PyUnicode_ToLowerFull] *)
Definition to_lower_full (c : char) : pystr :=
  if (c <? 128)%N then [lower_char c]
  else if (c =? 304)%N then [105; 775]%N
  else match lowercase_lookup lowercase_table c with
       | Some x => [x]
       | None => [c]
       end.

(** The two scans of [handle_capital_sigma] step over the case-ignorable
    code points next to the sigma. *)
Fixpoint skip_case_ignorable (s : pystr) : pystr :=
  match s with
  | c :: s' => if is_case_ignorable c then skip_case_ignorable s' else s
  | [] => []
  end.

(** [handle_capital_sigma]: the sigma is final when a cased code point
    comes before it and none comes after it, case-ignorable code points
    apart.  [before] is the text before the sigma, the nearest code point
    first, and [after] the text after it. *)
Definition final_sigma (before after : pystr) : bool :=
  match skip_case_ignorable before with
  | [] => false
  | c :: _ =>
      is_cased c
      && match skip_case_ignorable after with
         | [] => true
         | c' :: _ => negb (is_cased c')
         end
  end.

Fixpoint lower_from (before s : pystr) : pystr :=
  match s with
  | [] => []
  | c :: s' =>
      (if (c =? 931)%N
       then [if final_sigma before s' then 962%N else 963%N]
       else to_lower_full c)
      ++ lower_from (c :: before) s'
  end.

(** [s.lower()] *)
Definition lower (s : pystr) : pystr := lower_from [] s.

(** [s.lstrip('.')] *)
Fixpoint lstrip_dot (s : pystr) : pystr :=
  match s with
  | c :: s' => if N.eqb c DOT then lstrip_dot s' else s
  | [] => []
  end.

(** Number of bytes of one code point in UTF-8; [None] for a surrogate,
    which the strict encoder refuses. *)
Definition utf8_width (c : char) : option Z :=
  if (c <? 128)%N then Some 1
  else if (c <? 2048)%N then Some 2
  else if (55296 <=? c)%N && (c <=? 57343)%N then None
  else if (c <? 65536)%N then Some 3
  else Some 4.

(** [len(s.encode('utf-8'))]; [None] is [UnicodeEncodeError]. *)
Fixpoint utf8_len (s : pystr) : option Z :=
  match s with
  | [] => Some 0
  | c :: s' =>
      match utf8_width c, utf8_len s' with
      | Some w, Some n => Some (w + n)
      | _, _ => None
      end
  end.

(** [str(n)] for a non-negative integer. *)
Definition str_of_Z (n : Z) : pystr :=
  lit (NilEmpty.string_of_uint (N.to_uint (Z.to_N n))).

(** [f"{n/1024:.1f}"] for an integer [0 <= n < 2^53]: the quotient is then
    an exact double, and the format rounds it to one decimal, ties to
    even. *)
Definition format_kb_1f (n : Z) : pystr :=
  let q := (10 * n) / 1024 in
  let r := (10 * n) mod 1024 in
  let t := if (512 <? r) || ((r =? 512) && Z.odd q) then q + 1 else q in
  str_of_Z (t / 10) ++ lit "." ++ str_of_Z (t mod 10).

(** ** [os.path] *)

(** [p.rfind(c)]: the index of the last occurrence, or [-1]. *)
Fixpoint rfind_from (c : char) (p : pystr) (i acc : Z) : Z :=
  match p with
  | [] => acc
  | x :: p' => rfind_from c p' (i + 1) (if N.eqb x c then i else acc)
  end.

Definition rfind (c : char) (p : pystr) : Z := rfind_from c p 0 (-1).

(** The loop [while filenameIndex < dotIndex] of [genericpath._splitext]:
    [true] when it returns from inside (some character before the last dot
    is not a dot), [false] when it runs to the end.  [n] is the number of
    iterations left, [dotIndex - filenameIndex]. *)
Fixpoint skip_leading_dots (p : pystr) (filenameIndex : Z) (n : nat) : bool :=
  match n with
  | O => false
  | S n' =>
      if negb (N.eqb (nth (Z.to_nat filenameIndex) p 0%N) DOT) then true
      else skip_leading_dots p (filenameIndex + 1) n'
  end.

(** [posixpath.splitext] *)
Definition splitext (p : pystr) : pystr * pystr :=
  let sepIndex := rfind SLASH p in
  let dotIndex := rfind DOT p in
  if (dotIndex >? sepIndex)
     && skip_leading_dots p (sepIndex + 1) (Z.to_nat (dotIndex - (sepIndex + 1)))
  then (firstn (Z.to_nat dotIndex) p, skipn (Z.to_nat dotIndex) p)
  else (p, []).

(** [os.path.relpath(os.path.join(root, file_name), repo_path)], where
    [root] is given by its components below [repo_path]. *)
Fixpoint relpath (root : list pystr) (file_name : pystr) : pystr :=
  match root with
  | [] => file_name
  | d :: root' => d ++ [SLASH] ++ relpath root' file_name
  end.

(** ** The repository on disk *)

Record file := File {
  file_name : pystr;
  getsize : option Z;       (* [os.path.getsize]; [None] is [OSError] *)
  read : option pystr       (* [open(..., errors='ignore')] and [f.read()];
                               [None] when either raises *)
}.

Inductive dir := Dir (name : pystr) (files : list file) (subdirs : list dir).

Definition dir_name (d : dir) : pystr := let 'Dir n _ _ := d in n.
Definition dir_files (d : dir) : list file := let 'Dir _ fs _ := d in fs.
Definition dir_subdirs (d : dir) : list dir := let 'Dir _ _ ds := d in ds.

Fixpoint dir_size (d : dir) : nat :=
  match d with
  | Dir _ _ ds => S (fold_right (fun c n => (dir_size c + n)%nat) O ds)
  end.

(** ** Defaults of the policy lists (lines 33-66) *)

Definition default_include_extensions : list pystr := map lit
  [ ".txt"; ".md"; ".markdown"; ".rst";
    ".py"; ".js"; ".ts"; ".jsx"; ".tsx"; ".json"; ".yaml"; ".yml";
    ".html"; ".css"; ".scss"; ".less"; ".xml"; ".vue"; ".svelte";
    ".java"; ".c"; ".cpp"; ".h"; ".hpp"; ".go"; ".rs"; ".php"; ".sh"; ".bash";
    ".rb"; ".pl"; ".sql"; ".csv"; ".tsv"; ".toml"; ".ini"; ".cfg"; ".conf";
    ".dockerfile"; ".Dockerfile";
    ".env"; ".sample";
    ".log" ]%string.

Definition default_exclude_dirs : list pystr := map lit
  [ ".git"; ".svn"; ".hg";
    "node_modules"; "bower_components"; "vendor";
    "build"; "dist"; "out"; "target"; ".idea"; ".vscode";
    "__pycache__"; ".pytest_cache";
    "obj"; "bin";
    "logs";
    "tmp"; "temp" ]%string.

Definition default_exclude_files : list pystr := map lit
  [ "package-lock.json"; "yarn.lock"; "pnpm-lock.yaml";
    "Pipfile.lock"; "Gemfile.lock";
    ".DS_Store"; "Thumbs.db";
    "npm-debug.log";
    "CVS" ]%string.

(** ** Rendering of one file (lines 127-143) *)

Definition code_extensions : list pystr := map lit
  [ ".py"; ".js"; ".ts"; ".jsx"; ".tsx"; ".json"; ".yaml"; ".yml";
    ".html"; ".css"; ".scss"; ".less"; ".java"; ".c"; ".cpp"; ".go"; ".rs"; ".php";
    ".sh"; ".bash"; ".rb"; ".pl"; ".sql"; ".toml"; ".ini"; ".cfg"; ".conf";
    ".dockerfile"; ".Dockerfile" ]%string.

Definition file_header (relative_path : pystr) : pystr :=
  lit "## File: " ++ relative_path ++ NL ++ NL.

Definition lang (file_ext : pystr) : pystr :=
  let lang := lstrip_dot file_ext in
  if str_eqb lang (lit "dockerfile") then lit "dockerfile"
  else if str_eqb lang (lit "yml") then lit "yaml"
  else lang.

Definition render (relative_path file_ext content : pystr) : pystr :=
  if py_in file_ext code_extensions then
    file_header relative_path ++
    lit "```" ++ lang file_ext ++ NL ++ content ++ NL ++ lit "```" ++ NL ++ NL
  else
    file_header relative_path ++ content ++ NL ++ NL.

(** ** The local variables of [generate_repo_knowledge_file] *)

(** What the run did, in order.  A file is named by the components of its
    directory below the repository root and by its record. *)
Inductive event :=
| EvWalk (root : list pystr)                    (* [os.walk] yielded [root] *)
| EvFile (root : list pystr) (f : file)         (* the file loop reached [f] *)
| EvGetsize (root : list pystr) (f : file)      (* line 101 *)
| EvOpen (root : list pystr) (f : file)         (* line 123 *)
| EvAppend (root : list pystr) (f : file)       (* lines 141, 143 *)
| EvBudgetPre (root : list pystr) (f : file)    (* line 115 *)
| EvBudgetPost (root : list pystr) (f : file).  (* line 149 *)

Record state := State {
  include_extensions : list pystr;
  exclude_dirs : list pystr;
  exclude_files : list pystr;
  processed_content : list pystr;
  current_size_bytes : Z;
  skipped_count : nat;
  included_count : nat;
  trace : list event
}.

Definition log (e : event) (st : state) : state :=
  State (include_extensions st) (exclude_dirs st) (exclude_files st)
        (processed_content st) (current_size_bytes st)
        (skipped_count st) (included_count st) (trace st ++ [e]).

(** [skipped_count += 1] *)
Definition skip (st : state) : state :=
  State (include_extensions st) (exclude_dirs st) (exclude_files st)
        (processed_content st) (current_size_bytes st)
        (S (skipped_count st)) (included_count st) (trace st).

(** [processed_content.append(block)] *)
Definition append (block : pystr) (st : state) : state :=
  State (include_extensions st) (exclude_dirs st) (exclude_files st)
        (processed_content st ++ [block]) (current_size_bytes st)
        (skipped_count st) (included_count st) (trace st).

(** [current_size_bytes = n; included_count += 1] (lines 145-146) *)
Definition account (n : Z) (st : state) : state :=
  State (include_extensions st) (exclude_dirs st) (exclude_files st)
        (processed_content st) n
        (skipped_count st) (S (included_count st)) (trace st).

(** How one iteration of the file loop ends. *)
Inductive flow := Continue | Break.

Section Run.

Variable max_output_size_kb : Z.
Variable max_file_size_kb : Z.

Definition max_output_size_bytes : Z := max_output_size_kb * 1024.

(** The body of [for file_name in files] (lines 85-157).  [dirs] is the
    list object that [os.walk] yielded for the current directory; the two
    budget stops empty it in place. *)
Definition process_file (root : list pystr) (f : file)
           (st : state) (dirs : list dir) : state * list dir * flow :=
  let st := log (EvFile root f) st in
  let file_ext := lower (snd (splitext (file_name f))) in
  let relative_path := relpath root (file_name f) in
  if py_in (file_name f) (exclude_files st) then
    (skip st, dirs, Continue)
  else if negb (py_in file_ext (include_extensions st)) then
    (skip st, dirs, Continue)
  else
    let st := log (EvGetsize root f) st in
    match getsize f with
    | None => (skip st, dirs, Continue)
    | Some file_size_bytes =>
        if file_size_bytes >? max_file_size_kb * 1024 then
          (skip st, dirs, Continue)
        else if current_size_bytes st + file_size_bytes
                >? max_output_size_bytes then
          (skip (log (EvBudgetPre root f) st), [], Break)
        else
          let st := log (EvOpen root f) st in
          match read f with
          | None => (skip st, dirs, Continue)
          | Some content =>
              let st :=
                log (EvAppend root f)
                    (append (render relative_path file_ext content) st) in
              match utf8_len (join (processed_content st)) with
              | None => (skip st, dirs, Continue)
              | Some n =>
                  let st := account n st in
                  if current_size_bytes st >=? max_output_size_bytes then
                    (log (EvBudgetPost root f) st, [], Break)
                  else (st, dirs, Continue)
              end
          end
    end.

(** [for file_name in files: ...] *)
Fixpoint for_files (root : list pystr) (files : list file)
         (st : state) (dirs : list dir) : state * list dir :=
  match files with
  | [] => (st, dirs)
  | f :: files' =>
      match process_file root f st dirs with
      | (st', dirs', Continue) => for_files root files' st' dirs'
      | (st', dirs', Break) => (st', dirs')
      end
  end.

(** The body of [for root, dirs, files in os.walk(...)] (lines 81-160):
    the state after it, the list [dirs] as the body leaves it, and whether
    the body ended in the [break] of line 160. *)
Definition visit (root : list pystr) (d : dir) (st : state)
  : state * list dir * flow :=
  let st := log (EvWalk root) st in
  let dirs :=
    filter (fun c => negb (py_in (dir_name c) (exclude_dirs st)))
           (dir_subdirs d) in
  let '(st, dirs) := for_files root (dir_files d) st dirs in
  if current_size_bytes st >=? max_output_size_bytes
  then (st, dirs, Break)
  else (st, dirs, Continue).

(** [os.walk(repo_path, topdown=True)] driving that body: the pending
    directories are a stack; a directory is popped, yielded to the body,
    and what the body left in [dirs] is pushed, first name on top.
    [None] when [fuel] runs out before the stack is empty. *)
Fixpoint walk (fuel : nat) (stack : list (list pystr * dir)) (st : state)
  : option state :=
  match stack with
  | [] => Some st
  | (root, d) :: stack' =>
      match fuel with
      | O => None
      | S fuel' =>
          match visit root d st with
          | (st', _, Break) => Some st'
          | (st', dirs, Continue) =>
              walk fuel'
                   (map (fun c => (root ++ [dir_name c], c)) dirs ++ stack')
                   st'
          end
      end
  end.

End Run.

(** ** Writing the document (lines 163-189) and the routine as a whole *)

Definition repo_header (repo_name : pystr) (st : state) : pystr :=
  lit "# Repository: " ++ repo_name ++ NL ++
  NL ++
  lit "**Repository Type**: GitHub Code Repository  " ++ NL ++
  lit "**Purpose**: Knowledge base for LLM training on " ++ repo_name ++
    lit " codebase  " ++ NL ++
  lit "**Files Included**: " ++ str_of_Z (Z.of_nat (included_count st)) ++
    lit " files  " ++ NL ++
  lit "**Total Size**: ~" ++ format_kb_1f (current_size_bytes st) ++
    lit " KB" ++ NL ++
  NL ++
  lit "## Repository Overview" ++ NL ++
  lit "This knowledge base contains code, documentation, and configuration files from the "
    ++ repo_name ++
    lit " repository to help understand its structure, patterns, and implementation details."
    ++ NL ++
  NL ++
  lit "---" ++ NL ++
  NL.

(** What happened to [output_filename]. *)
Inductive written :=
| NoFile                          (* [processed_content] was empty *)
| Wrote (final_content : pystr)   (* [f.write(final_content)] succeeded *)
| WriteError.                     (* the write raised (line 186) *)

Definition write_document (repo_name : pystr) (st : state) : written :=
  match processed_content st with
  | [] => NoFile
  | _ :: _ =>
      let final_content := repo_header repo_name st ++ join (processed_content st) in
      match utf8_len final_content with
      | Some _ => Wrote final_content
      | None => WriteError
      end
  end.

(** The value a call evaluates to. *)
Inductive pyvalue :=
| PyNone
| PyIntPair (a b : nat).

Record outcome := Outcome {
  final : state;          (* the local variables when the routine ends *)
  output : written;
  returned : pyvalue
}.

(** [x if x is not None else default] (lines 33, 46, 58) *)
Definition or_default {A} (x : option A) (default : A) : A :=
  match x with Some v => v | None => default end.

Definition initial_state
           (include_extensions exclude_dirs exclude_files : option (list pystr))
  : state :=
  State (or_default include_extensions default_include_extensions)
        (or_default exclude_dirs default_exclude_dirs)
        (or_default exclude_files default_exclude_files)
        [] 0 O O [].

(** The traversal of the routine, with the fuel [os.walk] needs for
    [repo]. *)
Definition traverse (repo : dir) (max_output_size_kb max_file_size_kb : Z)
           (st : state) : option state :=
  walk max_output_size_kb max_file_size_kb (dir_size repo) [([], repo)] st.

(** [generate_repo_knowledge_file]; [repo_name] is
    [os.path.basename(os.path.normpath(repo_path))] and [repo] is the tree
    at [repo_path].  The body has no [return]: a call evaluates to
    [None]. *)
Definition generate_repo_knowledge_file
           (repo_name : pystr) (repo : dir)
           (max_output_size_kb max_file_size_kb : Z)
           (include_extensions exclude_dirs exclude_files : option (list pystr))
  : option outcome :=
  match traverse repo max_output_size_kb max_file_size_kb
                 (initial_state include_extensions exclude_dirs exclude_files)
  with
  | Some st => Some (Outcome st (write_document repo_name st) PyNone)
  | None => None
  end.

(** The joined blocks, [{"".join(processed_content)}]. *)
Definition body (st : state) : pystr := join (processed_content st).

(** ** Sample repositories *)

Definition text_file (name : string) (content : string) : file :=
  let c := lit content in
  File (lit name) (utf8_len c) (Some c).

Definition sized_file (name : string) (size : Z) : file :=
  File (lit name) (Some size) (Some (repeat 97%N (Z.to_nat size))).

Definition scenario_names : dir :=
  Dir (lit "repo")
      [text_file "a.py" "print(1)22"; text_file "a.md" "0123456789";
       text_file "npm-debug.log" "secret"]
      [].

Definition scenario_budget : dir :=
  Dir (lit "repo") [sized_file "a.md" 1024] [].

Definition scenario_siblings : dir :=
  Dir (lit "repo") []
      [ Dir (lit "a") [sized_file "big.py" 2000]
            [Dir (lit "deep") [text_file "x.py" "1"] []];
        Dir (lit "b") [text_file "small.py" "x = 1"] [] ].

(** A file whose name has a byte that is not UTF-8: [os.walk] yields it
    with the byte 0xE9 decoded to the lone surrogate U+DCE9. *)
Definition undecodable_name : file :=
  File (lit "caf" ++ [56553%N] ++ lit ".py") (Some 1) (Some (lit "x")).

Definition scenario_surrogate : dir :=
  Dir (lit "repo") [undecodable_name; text_file "b.py" "y"] [].

Definition scenario_excluded : dir :=
  Dir (lit "repo") [text_file "main.py" "pass"]
      [ Dir (lit "node_modules") [text_file "index.js" "1"]
            [Dir (lit "lib") [text_file "util.js" "2"] []];
        Dir (lit "src") [text_file "app.py" "3"] [] ].

Definition scenario_three : dir :=
  Dir (lit "repo")
      [sized_file "a.md" 500; sized_file "b.md" 500; sized_file "c.md" 500] [].



Definition scenario_case : dir :=
  Dir (lit "repo") [] [Dir (lit "build") [] []; Dir (lit "Build") [] []].

(** ** Notions used by the statements *)

(** The directory an event is about, by its components below the root. *)
Definition ev_root (e : event) : list pystr :=
  match e with
  | EvWalk root => root
  | EvFile root _ | EvGetsize root _ | EvOpen root _ | EvAppend root _
  | EvBudgetPre root _ | EvBudgetPost root _ => root
  end.

(** The two name tests of lines 90 and 95 together: the file goes on to the
    size checks. *)
Definition accepted (st : state) (name : pystr) : bool :=
  negb (py_in name (exclude_files st))
  && py_in (lower (snd (splitext name))) (include_extensions st).

(** Every file of the tree satisfies [P]. *)
Fixpoint all_files (P : file -> Prop) (d : dir) : Prop :=
  match d with
  | Dir _ fs ds => Forall P fs /\ fold_right (fun c acc => all_files P c /\ acc) True ds
  end.

(** Reading the file gives text that encodes to no more bytes than the file
    has on disk (decoding with [errors='ignore'] and newline translation
    only drop bytes). *)
Definition content_fits (f : file) : Prop :=
  forall content, read f = Some content ->
    exists size n, getsize f = Some size /\ utf8_len content = Some n /\ n <= size.

(** What rendering adds to the content of a file: the bytes of its block
    with the content left out. *)
Definition overhead (root : list pystr) (f : file) : option Z :=
  utf8_len (render (relpath root (file_name f))
                   (lower (snd (splitext (file_name f)))) []).

(** Directories pending on the stack of the walk, with their subtrees. *)
Definition stack_size (stack : list (list pystr * dir)) : nat :=
  fold_right (fun x n => (dir_size (snd x) + n)%nat) O stack.

(** The number of files the loop reached. *)
Definition files_reached (t : list event) : nat :=
  List.length (filter (fun e => match e with EvFile _ _ => true | _ => false end) t).

(** The block of each [EvAppend] of a trace, in order. *)
Definition block_of (e : event) : list pystr :=
  match e with
  | EvAppend root f =>
      match read f with
      | Some content =>
          [render (relpath root (file_name f))
                  (lower (snd (splitext (file_name f)))) content]
      | None => []
      end
  | _ => []
  end.

Definition blocks_of (t : list event) : list pystr := flat_map block_of t.

(** The rendering as the specification words it: the header line and a
    blank line; then either the content in a fence tagged with the extension
    without its dot ([yaml] for [.yml]), or the content as it is. *)
Definition spec_tag (file_ext : pystr) : pystr :=
  if str_eqb file_ext (lit ".yml") then lit "yaml" else tl file_ext.

Definition spec_block (relative_path file_ext content : pystr) : pystr :=
  lit "## File: " ++ relative_path ++ NL ++ NL ++
  (if py_in file_ext code_extensions
   then lit "```" ++ spec_tag file_ext ++ NL ++ content ++ NL ++ lit "```" ++ NL ++ NL
   else content ++ NL ++ NL).

(** No component of the path is an excluded directory name. *)
Definition clear_of (excluded : list pystr) (root : list pystr) : Prop :=
  Forall (fun c => ~ In c excluded) root.

(** What the counters satisfy at any point of the run. *)
Definition counted (st : state) : Prop :=
  (skipped_count st + included_count st = files_reached (trace st))%nat /\
  (utf8_len (body st) <> None ->
   included_count st = List.length (processed_content st)).

(** The trace holds no post-check stop. *)
Definition no_post (t : list event) : Prop :=
  forall root f, ~ In (EvBudgetPost root f) t.

(** The run was stopped by the post-check, once, with the budget reached. *)
Definition stopped_by_post (max_bytes : Z) (st : state) : Prop :=
  exists t root f,
    trace st = t ++ [EvBudgetPost root f] /\ no_post t /\
    current_size_bytes st >= max_bytes.

(** While the run goes on: either the joined blocks no longer encode, or
    [current_size_bytes] is their encoded length and, once a block has been
    appended, it is below the budget. *)
Definition going (max_bytes : Z) (st : state) : Prop :=
  utf8_len (body st) = None \/
  (utf8_len (body st) = Some (current_size_bytes st) /\
   (processed_content st = [] \/ current_size_bytes st < max_bytes)).

(** When the run is over: as above, or the run was stopped by the
    post-check on a file and the budget is exceeded by no more than the
    overhead of that file. *)
Definition ended (max_bytes : Z) (st : state) : Prop :=
  utf8_len (body st) = None \/
  (utf8_len (body st) = Some (current_size_bytes st) /\
   (processed_content st = [] \/ current_size_bytes st < max_bytes \/
    exists t root f k,
      trace st = t ++ [EvBudgetPost root f] /\
      overhead root f = Some k /\
      current_size_bytes st <= max_bytes + k)).

(** The file passed the two name tests and the per-file size limit. *)
Definition passed_checks (mf : Z) (st0 : state) (f : file) : Prop :=
  accepted st0 (file_name f) = true /\
  exists size, getsize f = Some size /\ size <= mf * 1024.

Definition checked (mf : Z) (st0 : state) (e : event) : Prop :=
  match e with
  | EvOpen _ f => passed_checks mf st0 f
  | EvAppend _ f => passed_checks mf st0 f /\ read f <> None
  | _ => True
  end.

(** ** Further notions: extensions *)

(** The form of an extension that [splitext] can give: a dot, then text
    with no dot and no separator. *)
Definition ext_form (e : pystr) : Prop :=
  exists e', e = DOT :: e' /\ ~ In DOT e' /\ ~ In SLASH e'.

(** No ASCII capital letter. *)
Definition no_capital (e : pystr) : Prop :=
  forall c, In c e -> ~ (65 <= c <= 90)%N.

(** The state with another [include_extensions]. *)
Definition with_include_extensions (l : list pystr) (st : state) : state :=
  State l (exclude_dirs st) (exclude_files st)
        (processed_content st) (current_size_bytes st)
        (skipped_count st) (included_count st) (trace st).

(** An entry of the lower-case table that lies outside ASCII and whose
    targets come after the ASCII capitals, the dot and the separator and
    are no surrogates. *)
Definition lowercase_entry_ok (e : N * N * N * N) : bool :=
  let '(first, last, _, target) := e in
  (128 <=? first)%N && (97 <=? target)%N
  && ((target + (last - first) <? 55296)%N || (57343 <? target)%N).

(** Letter case of the ASCII letters: two code points that are equal or
    the capital and the small form of one letter, and two texts that are so
    at every position. *)
Definition is_capital (c : char) : bool := (65 <=? c)%N && (c <=? 90)%N.

Definition same_letterb (a b : char) : bool :=
  (a =? b)%N
  || (is_capital a && (b =? a + 32)%N)
  || (is_capital b && (a =? b + 32)%N).

Fixpoint case_variantb (a b : pystr) : bool :=
  match a, b with
  | [], [] => true
  | x :: a', y :: b' => same_letterb x y && case_variantb a' b'
  | _, _ => false
  end.

(** ** Further notions: well-formed text *)

(** The text can be encoded to UTF-8: it holds no lone surrogate. *)
Definition encodable (s : pystr) : Prop := utf8_len s <> None.

(** The name of the file and what reading it gives can be encoded. *)
Definition wf_file (f : file) : Prop :=
  encodable (file_name f) /\ forall c, read f = Some c -> encodable c.

(** Every directory below the root of the tree has a name that
    satisfies [P]. *)
Fixpoint all_dirs (P : pystr -> Prop) (d : dir) : Prop :=
  match d with
  | Dir _ _ ds =>
      fold_right (fun c acc => P (dir_name c) /\ all_dirs P c /\ acc) True ds
  end.

Definition well_formed (repo : dir) : Prop :=
  all_files wf_file repo /\ all_dirs encodable repo.

(** [current_size_bytes] is the encoded length of the joined blocks. *)
Definition exact (st : state) : Prop :=
  utf8_len (body st) = Some (current_size_bytes st).

(** ** Further notions: what a run covers *)

Definition budget_event (e : event) : bool :=
  match e with
  | EvBudgetPre _ _ | EvBudgetPost _ _ => true
  | _ => false
  end.

(** Neither budget check tripped. *)
Definition no_budget_stop (t : list event) : Prop :=
  forall e, In e t -> budget_event e = false.

(** The files the loop reached, each with its directory, in order. *)
Definition reached (t : list event) : list (list pystr * file) :=
  flat_map (fun e => match e with EvFile root f => [(root, f)] | _ => [] end) t.

(** The files of the tree outside the excluded directories, parent first
    and subdirectories in listing order. *)
Fixpoint listing (excluded : list pystr) (root : list pystr) (d : dir)
  : list (list pystr * file) :=
  match d with
  | Dir _ fs ds =>
      map (pair root) fs ++
      flat_map (fun c => if py_in (dir_name c) excluded then []
                         else listing excluded (root ++ [dir_name c]) c) ds
  end.

(** ** Further notions: the directory a stop gives up *)

(** [a] is [b] or a directory above it. *)
Definition prefix (a b : list pystr) : Prop := exists c, b = a ++ c.

(** No two subdirectories of a directory have the same name, anywhere in
    the tree. *)
Fixpoint distinct_names (d : dir) : Prop :=
  match d with
  | Dir _ _ ds =>
      NoDup (map dir_name ds) /\
      fold_right (fun c acc => distinct_names c /\ acc) True ds
  end.

(** After a pre-read stop on a file of a directory, the trace has no event
    in that directory or below it. *)
Definition nothing_below_after_pre (t : list event) : Prop :=
  forall t1 root f t2,
    t = t1 ++ EvBudgetPre root f :: t2 ->
    forall e, In e t2 -> ~ prefix root (ev_root e).

Definition no_pre (t : list event) : Prop :=
  forall root f, ~ In (EvBudgetPre root f) t.

(** The roots of the pending directories are unrelated: none is another or
    above another. *)
Fixpoint unrelated (l : list (list pystr)) : Prop :=
  match l with
  | [] => True
  | r :: l' =>
      (forall s, In s l' -> ~ prefix r s /\ ~ prefix s r) /\ unrelated l'
  end.

(** What the walk keeps true of its stack: the pending roots are
    unrelated, none is the directory of a past event or above it, none is
    in a directory that a pre-read stop gave up, and the pending trees have
    distinct names. *)
Definition stack_ok (t : list event) (stack : list (list pystr * dir)) : Prop :=
  unrelated (map fst stack) /\
  (forall e s, In e t -> In s (map fst stack) -> ~ prefix s (ev_root e)) /\
  (forall p f s, In (EvBudgetPre p f) t -> In s (map fst stack) ->
                 ~ prefix p s) /\
  Forall (fun x => distinct_names (snd x)) stack.

(** ** More of [os.path] *)

Definition startswith_sep (p : pystr) : bool :=
  match p with
  | c :: _ => N.eqb c SLASH
  | [] => false
  end.

Definition endswith_sep (p : pystr) : bool :=
  match p with
  | [] => false
  | _ :: _ => N.eqb (last p 0%N) SLASH
  end.

(** [posixpath.join(a, b)] *)
Definition path_join (a b : pystr) : pystr :=
  if startswith_sep b then b
  else if match a with [] => true | _ => endswith_sep a end then a ++ b
  else a ++ [SLASH] ++ b.

(** [s.split(sep)] *)
Fixpoint split_on (sep : char) (s : pystr) : list pystr :=
  match s with
  | [] => [[]]
  | c :: s' =>
      if N.eqb c sep then [] :: split_on sep s'
      else match split_on sep s' with
           | w :: ws => (c :: w) :: ws
           | [] => [[c]]
           end
  end.

(** [sep.join(comps)] with [sep = '/'] *)
Fixpoint sep_join (comps : list pystr) : pystr :=
  match comps with
  | [] => []
  | [c] => c
  | c :: comps' => c ++ [SLASH] ++ sep_join comps'
  end.

(** One turn of the loop [for comp in comps] of [posixpath.normpath]. *)
Definition normpath_step (initial_slashes : nat) (new_comps : list pystr)
           (comp : pystr) : list pystr :=
  if str_eqb comp [] || str_eqb comp [DOT] then new_comps
  else if negb (str_eqb comp [DOT; DOT])
          || (Nat.eqb initial_slashes 0
              && match new_comps with [] => true | _ => false end)
          || match new_comps with
             | [] => false
             | _ => str_eqb (last new_comps []) [DOT; DOT]
             end
       then new_comps ++ [comp]
       else match new_comps with
            | [] => new_comps
            | _ => removelast new_comps
            end.

(** The [initial_slashes] of [posixpath.normpath]: POSIX allows one or two
    initial slashes and treats three or more as one. *)
Definition initial_slashes (path : pystr) : nat :=
  match path with
  | a :: b :: c :: _ =>
      if N.eqb a SLASH
      then if N.eqb b SLASH && negb (N.eqb c SLASH) then 2%nat else 1%nat
      else O
  | [a; b] =>
      if N.eqb a SLASH then if N.eqb b SLASH then 2%nat else 1%nat else O
  | [a] => if N.eqb a SLASH then 1%nat else O
  | [] => O
  end.

(** [posixpath.normpath] *)
Definition normpath (path : pystr) : pystr :=
  match path with
  | [] => [DOT]
  | _ =>
      let comps := split_on SLASH path in
      let new_comps :=
        fold_left (normpath_step (initial_slashes path)) comps [] in
      let path := repeat SLASH (initial_slashes path) ++ sep_join new_comps in
      match path with [] => [DOT] | _ => path end
  end.

(** [posixpath.basename] *)
Definition basename (p : pystr) : pystr :=
  skipn (Z.to_nat (rfind SLASH p + 1)) p.

(** [repo_name] (line 68) *)
Definition repo_name_of (repo_path : pystr) : pystr :=
  basename (normpath repo_path).

(** [output_filename] (line 69) *)
Definition output_filename_of (output_dir repo_path : pystr) : pystr :=
  path_join output_dir (repo_name_of repo_path ++ lit "_knowledge.md").

(** A name as a directory listing gives it: not empty, not [.] or [..],
    without separator. *)
Definition entry_name (item : pystr) : Prop :=
  item <> [] /\ item <> [DOT] /\ item <> [DOT; DOT] /\ ~ In SLASH item.

(** Text that is empty or ends with a separator. *)
Definition dir_part (x : pystr) : Prop := x = [] \/ exists y, x = y ++ [SLASH].

(** ** The drivers

    The output directory is given by its files ([store]).  The optimized
    driver works on fixed paths, with the output directory outside the
    repositories: the file system it walks is given by [tree_at], the tree
    at a path when the path is a directory ([os.path.isdir]), and
    [os.makedirs] and [open] of its output files are taken to succeed.
    The command-line driver takes both directories from the caller: it
    reads the file system as the writes so far have left it, and its
    output files may fail to open. *)

(** The files of the output directory: path and text, the latest write
    first. *)
Definition store := list (pystr * pystr).

Fixpoint fs_read (path : pystr) (s : store) : option pystr :=
  match s with
  | [] => None
  | (p, text) :: s' => if str_eqb p path then Some text else fs_read path s'
  end.

(** What lines 163-189 do to the file at [path]: nothing when no block was
    collected; otherwise the file is opened for writing, which empties it,
    and the document is written unless encoding it raises. *)
Definition apply_output (path : pystr) (w : written) (s : store) : store :=
  match w with
  | NoFile => s
  | Wrote final_content => (path, final_content) :: s
  | WriteError => (path, []) :: s
  end.

(** A call [generate_repo_knowledge_file(repo_path, output_dir, ...)] with
    the default lists, where [repo] is the tree at [repo_path]. *)
Definition call_generate (repo_path output_dir : pystr) (repo : dir)
           (max_output_size_kb max_file_size_kb : Z) (s : store)
  : option store :=
  match generate_repo_knowledge_file (repo_name_of repo_path) repo
          max_output_size_kb max_file_size_kb None None None with
  | Some o =>
      Some (apply_output (output_filename_of output_dir repo_path) (output o) s)
  | None => None
  end.

(** [github_knowledge_builder.main], after argument parsing (lines
    227-253).  A call of the routine may write a document, and a later walk
    sees the file system with that document in it: [tree_at s path] is the
    tree at [path], when [path] is a directory, and [writable s path] tells
    whether [os.makedirs] and [open] of lines 180-181 succeed for the
    output file [path], both at a time when the documents written so far
    are [s].  When they fail the routine catches the exception (line 186)
    and nothing is written. *)
Fixpoint main_loop (source_dir output_dir : pystr)
         (max_repo_size_kb max_file_size_kb : Z)
         (tree_at : store -> pystr -> option dir)
         (writable : store -> pystr -> bool)
         (items : list pystr) (s : store) (processed_repos : nat)
  : option (store * nat) :=
  match items with
  | [] => Some (s, processed_repos)
  | item :: items' =>
      let full_path := path_join source_dir item in
      match tree_at s full_path with
      | Some repo =>
          match generate_repo_knowledge_file
                  (repo_name_of full_path) repo
                  max_repo_size_kb max_file_size_kb None None None with
          | Some o =>
              let output_filename := output_filename_of output_dir full_path in
              let s' :=
                if writable s output_filename
                then apply_output output_filename (output o) s
                else s in
              main_loop source_dir output_dir max_repo_size_kb
                        max_file_size_kb tree_at writable items' s'
                        (S processed_repos)
          | None => None
          end
      | None =>
          main_loop source_dir output_dir max_repo_size_kb max_file_size_kb
                    tree_at writable items' s processed_repos
      end
  end.

(** How [main] ends: it returns, with the documents written and
    [processed_repos], or an exception leaves it. *)
Inductive main_result :=
| MainRaised
| MainReturned (s : store) (processed_repos : nat).

(** [isdir_source] is [os.path.isdir(args.source_dir)] (line 227),
    [makedirs] tells whether [os.makedirs(args.output_dir, exist_ok=True)]
    of line 231 succeeds (it raises when the path is an existing file or
    cannot be created), and [listdir] is [os.listdir(args.source_dir)] of
    line 236, taken after the output directory was made, or [None] when it
    raises. *)
Definition main (source_dir output_dir : pystr)
           (max_repo_size_kb max_file_size_kb : Z)
           (tree_at : store -> pystr -> option dir)
           (writable : store -> pystr -> bool)
           (isdir_source makedirs : bool) (listdir : option (list pystr))
           (s : store) : option main_result :=
  if negb isdir_source then Some (MainReturned s O)
  else if negb makedirs then Some MainRaised
  else match listdir with
       | None => Some MainRaised
       | Some items =>
           match main_loop source_dir output_dir max_repo_size_kb
                           max_file_size_kb tree_at writable items s O with
           | Some (s', processed_repos) =>
               Some (MainReturned s' processed_repos)
           | None => None
           end
       end.

(** [run_optimized_knowledge_builder.main] (lines 11-106). *)
Record repo_config := RepoConfig {
  cfg_path : pystr;
  cfg_name : pystr;
  cfg_priority : pystr;
  cfg_max_size_kb : Z
}.

Definition source_base : pystr := lit "C:\Users\Bills\Projects\REPO _KNOWLEDGE".
Definition optimized_output_dir : pystr :=
  lit "C:\Users\Bills\Projects\ai_knowledge_output_files".

Definition essential_repos : list (pystr * list repo_config) :=
  [ (lit "telegram_bot_essential",
     [ RepoConfig (lit "python-telegram-bot-master")
                  (lit "Python_Telegram_Bot_Essential") (lit "CRITICAL") 800;
       RepoConfig (lit "aiogram-dev-3.x")
                  (lit "Aiogram_Async_Bot_Essential") (lit "CRITICAL") 600;
       RepoConfig (lit "telegram-bot-design-pattern-master")
                  (lit "Telegram_Design_Patterns") (lit "HIGH") 400 ]);
    (lit "matrix_bot_essential",
     [ RepoConfig (lit "matrix-nio-main")
                  (lit "Matrix_Nio_Python_Essential") (lit "CRITICAL") 700;
       RepoConfig (lit "matrix-bot-sdk-main")
                  (lit "Matrix_Bot_SDK_JS_Essential") (lit "CRITICAL") 600;
       RepoConfig (lit "matrix-spec-main")
                  (lit "Matrix_Protocol_Spec_Essential") (lit "CRITICAL") 500;
       RepoConfig (lit "matrix-appservice-bridge-develop")
                  (lit "Matrix_Bridge_Patterns") (lit "HIGH") 400 ]) ].

(** [for repo_config in repos] (lines 80-100) *)
Fixpoint for_repos (tree_at : pystr -> option dir) (repos : list repo_config)
         (s : store) (total_processed : nat) : option (store * nat) :=
  match repos with
  | [] => Some (s, total_processed)
  | repo_config :: repos' =>
      let repo_path := path_join source_base (cfg_path repo_config) in
      match tree_at repo_path with
      | None => for_repos tree_at repos' s total_processed
      | Some repo =>
          match call_generate repo_path optimized_output_dir repo
                              (cfg_max_size_kb repo_config) 100 s with
          | Some s' => for_repos tree_at repos' s' (S total_processed)
          | None => None
          end
      end
  end.

(** [for category, repos in essential_repos.items()] (lines 76-100) *)
Fixpoint for_categories (tree_at : pystr -> option dir)
         (categories : list (pystr * list repo_config))
         (s : store) (total_processed : nat) : option (store * nat) :=
  match categories with
  | [] => Some (s, total_processed)
  | (_, repos) :: categories' =>
      match for_repos tree_at repos s total_processed with
      | Some (s', n) => for_categories tree_at categories' s' n
      | None => None
      end
  end.

Definition optimized_main (tree_at : pystr -> option dir) (s : store)
  : option (store * nat) :=
  for_categories tree_at essential_repos s O.

(** ** Notions for the drivers *)

(** One call of the routine by a driver: the path, the tree there and the
    two limits. *)
Definition job : Type := pystr * dir * Z * Z.

Definition job_file (output_dir : pystr) (j : job) : pystr :=
  let '(repo_path, _, _, _) := j in output_filename_of output_dir repo_path.

(** What the call leaves at its output file. *)
Definition job_result (j : job) : option written :=
  let '(repo_path, repo, mo, mf) := j in
  option_map output
    (generate_repo_knowledge_file (repo_name_of repo_path) repo mo mf
                                  None None None).

(** The content of a file after [apply_output] on it. *)
Definition after_write (w : written) (before : option pystr) : option pystr :=
  match w with
  | NoFile => before
  | Wrote final_content => Some final_content
  | WriteError => Some []
  end.

Fixpoint call_all (output_dir : pystr) (jobs : list job) (s : store)
  : option store :=
  match jobs with
  | [] => Some s
  | (repo_path, repo, mo, mf) :: jobs' =>
      match call_generate repo_path output_dir repo mo mf s with
      | Some s' => call_all output_dir jobs' s'
      | None => None
      end
  end.

(** The calls [main] makes, in order. *)
Definition main_jobs (source_dir : pystr) (mo mf : Z)
           (tree_at : pystr -> option dir) (items : list pystr) : list job :=
  flat_map (fun item =>
              match tree_at (path_join source_dir item) with
              | Some repo => [(path_join source_dir item, repo, mo, mf)]
              | None => []
              end) items.

(** The calls [optimized_main] makes, in order. *)
Definition optimized_jobs (tree_at : pystr -> option dir)
           (repos : list repo_config) : list job :=
  flat_map (fun c =>
              match tree_at (path_join source_base (cfg_path c)) with
              | Some repo =>
                  [(path_join source_base (cfg_path c), repo,
                    cfg_max_size_kb c, 100)]
              | None => []
              end) repos.

(** The knowledge file of the repository named [item]. *)
Definition knowledge_file (output_dir item : pystr) : pystr :=
  path_join output_dir (item ++ lit "_knowledge.md").

(** The repositories of [essential_repos], in the order the loops take
    them. *)
Definition configured_repos : list repo_config :=
  concat (map snd essential_repos).

(** [os.path.isdir] *)
Definition isdir (tree_at : pystr -> option dir) (path : pystr) : bool :=
  match tree_at path with Some _ => true | None => false end.

(** A sample source directory: two repositories and a plain file. *)
Definition sample_tree_at (path : pystr) : option dir :=
  if str_eqb path (lit "/srv/repos/projA") then Some scenario_names
  else if str_eqb path (lit "/srv/repos/projB") then Some scenario_excluded
  else None.

Definition sample_items : list pystr :=
  [lit "projA"; lit "notes.txt"; lit "projB"].

(** A source directory that holds the output directory [out]: the files
    of [out] are the documents written so far. *)
Definition document_file (entry : pystr * pystr) : file :=
  let '(path, text) := entry in File (basename path) (utf8_len text) (Some text).

Definition nested_tree_at (s : store) (path : pystr) : option dir :=
  if str_eqb path (lit "/srv/repos/projA") then Some scenario_names
  else if str_eqb path (lit "/srv/repos/out")
       then Some (Dir (lit "out") (map document_file s) [])
       else None.

(** The directories the walk yielded, in order. *)
Definition walked (t : list event) : list (list pystr) :=
  flat_map (fun e => match e with EvWalk root => [root] | _ => [] end) t.

(** Case analysis of [process_file] along its tests, in source order. *)
Ltac file_cases :=
  unfold process_file; cbv zeta;
  repeat match goal with
    | |- context [if ?c then _ else _] => destruct c eqn:?
    | |- context [match getsize ?f with _ => _ end] => destruct (getsize f) eqn:?
    | |- context [match read ?f with _ => _ end] => destruct (read f) eqn:?
    | |- context [match utf8_len ?s with _ => _ end] => destruct (utf8_len s) eqn:?
    end.

(** Reduces the projections of a state built by [log], [skip], [append]
    and [account], and nothing else. *)
Ltac state_simpl :=
  cbn [include_extensions exclude_dirs exclude_files processed_content
       current_size_bytes skipped_count included_count trace
       log skip append account] in *.

(** * Properties *)

(** ** Strings *)

Lemma str_eqb_eq (a b : pystr) : str_eqb a b = true <-> a = b.
Proof.
  revert b; induction a as [|x a IH]; intros [|y b]; simpl; split; try easy.
  - intros H. apply andb_true_iff in H as [Hx Hab].
    apply N.eqb_eq in Hx. apply IH in Hab. now subst.
  - intros H. injection H as -> ->. rewrite N.eqb_refl. simpl. now apply IH.
Qed.

Lemma py_in_In (x : pystr) (l : list pystr) : py_in x l = true <-> In x l.
Proof.
  unfold py_in. rewrite existsb_exists. split.
  - intros (y & Hy & E). apply str_eqb_eq in E. now subst.
  - intros H. exists x. split; [easy|]. now apply str_eqb_eq.
Qed.

Lemma py_in_not_In (x : pystr) (l : list pystr) : py_in x l = false <-> ~ In x l.
Proof.
  rewrite <- py_in_In. destruct (py_in x l); split; congruence.
Qed.

Lemma utf8_len_app (a b : pystr) :
  utf8_len (a ++ b) =
  match utf8_len a, utf8_len b with
  | Some x, Some y => Some (x + y)
  | _, _ => None
  end.
Proof.
  induction a as [|c a IH]; simpl.
  - destruct (utf8_len b); reflexivity.
  - rewrite IH. destruct (utf8_width c), (utf8_len a), (utf8_len b);
      try reflexivity. f_equal. lia.
Qed.

Lemma join_snoc (l : list pystr) (x : pystr) : join (l ++ [x]) = join l ++ x.
Proof. unfold join. rewrite concat_app. simpl. now rewrite app_nil_r. Qed.

(** ** [str.lower] *)

Lemma lowercase_lookup_image t c x :
  forallb lowercase_entry_ok t = true ->
  lowercase_lookup t c = Some x ->
  (97 <= x)%N /\ (x < 55296 \/ 57343 < x)%N.
Proof.
  induction t as [|[[[first last] step] target] t IH]; simpl; [discriminate|].
  intros Hok. apply andb_true_iff in Hok as [He Ht].
  destruct ((first <=? c)%N && (c <=? last)%N && _) eqn:E; [|now apply IH].
  intros [= <-].
  apply andb_true_iff in E as [E _]. apply andb_true_iff in E as [H1 H2].
  apply N.leb_le in H1, H2.
  apply andb_true_iff in He as [He H5]. apply andb_true_iff in He as [H3 H4].
  apply N.leb_le in H3, H4.
  apply orb_true_iff in H5 as [H5|H5]; apply N.ltb_lt in H5; lia.
Qed.

Lemma lowercase_table_ok : forallb lowercase_entry_ok lowercase_table = true.
Proof. vm_compute. reflexivity. Qed.

Lemma utf8_width_defined (x : char) :
  (x < 55296 \/ 57343 < x)%N -> utf8_width x <> None.
Proof.
  intros H. unfold utf8_width.
  destruct (x <? 128)%N; [discriminate|].
  destruct (x <? 2048)%N; [discriminate|].
  destruct ((55296 <=? x)%N && (x <=? 57343)%N) eqn:E.
  - apply andb_true_iff in E as [H1 H2]. apply N.leb_le in H1, H2. lia.
  - destruct (x <? 65536)%N; discriminate.
Qed.

(** A code point of the lower-cased text is a code point of the text that
    is not an ASCII capital, or it is new: then it is no ASCII capital, no
    dot, no separator and no surrogate. *)
Lemma to_lower_full_image c x :
  In x (to_lower_full c) ->
  (x = c /\ ~ (65 <= c <= 90)%N) \/ ((97 <= x)%N /\ utf8_width x <> None).
Proof.
  unfold to_lower_full.
  destruct (c <? 128)%N eqn:Ec.
  - intros [<-|[]]. unfold lower_char.
    destruct ((65 <=? c)%N && (c <=? 90)%N) eqn:E.
    + right. apply andb_true_iff in E as [H1 H2]. apply N.leb_le in H1, H2.
      split; [lia|]. apply utf8_width_defined. lia.
    + left. split; [reflexivity|].
      apply andb_false_iff in E as [E|E]; apply N.leb_gt in E; lia.
  - apply N.ltb_ge in Ec.
    destruct (c =? 304)%N.
    + intros [<-|[<-|[]]]; right; (split; [lia|discriminate]).
    + destruct (lowercase_lookup lowercase_table c) as [y|] eqn:E.
      * intros [<-|[]]. right.
        destruct (lowercase_lookup_image _ _ _ lowercase_table_ok E).
        split; [assumption|]. now apply utf8_width_defined.
      * intros [<-|[]]. left. split; [reflexivity|lia].
Qed.

Lemma lower_from_image before s x :
  In x (lower_from before s) ->
  (In x s /\ ~ (65 <= x <= 90)%N) \/ ((97 <= x)%N /\ utf8_width x <> None).
Proof.
  revert before. induction s as [|c s IH]; simpl; intros before H; [contradiction|].
  apply in_app_or in H as [H|H].
  - destruct (c =? 931)%N.
    + right. destruct H as [<-|[]].
      destruct (final_sigma _ _); (split; [lia|discriminate]).
    + apply to_lower_full_image in H as [[-> Hc]|H]; [left|right]; auto.
  - apply IH in H as [[H Hc]|H]; [left|right]; auto.
Qed.

Lemma lower_nil : lower [] = [].
Proof. reflexivity. Qed.

Lemma In_lower_fixed (x : char) e : (x < 97)%N -> In x (lower e) -> In x e.
Proof.
  intros Hx H. apply lower_from_image in H as [[H _]|[H _]]; [exact H|lia].
Qed.

Lemma lower_no_capital e : no_capital (lower e).
Proof.
  intros c H. apply lower_from_image in H as [[_ H]|[H _]]; [exact H|lia].
Qed.

Lemma lower_cons_dot e : lower (DOT :: e) = DOT :: lower_from [DOT] e.
Proof. reflexivity. Qed.

Lemma utf8_len_defined s :
  utf8_len s <> None <-> forall x, In x s -> utf8_width x <> None.
Proof.
  induction s as [|c s IH]; simpl.
  - split; [intros _ x []|discriminate].
  - destruct (utf8_width c) eqn:Ec.
    + destruct (utf8_len s) eqn:Es.
      * split; [|discriminate]. intros _ x [<-|H]; [congruence|].
        now apply IH.
      * split; [congruence|]. intros H. exfalso.
        apply (proj2 IH); [|reflexivity]. intros x Hx. apply H. now right.
    + split; [congruence|]. intros H. exfalso. apply (H c); auto.
Qed.

(** Lower-casing keeps a text encodable. *)
Lemma encodable_lower s : encodable s -> encodable (lower s).
Proof.
  unfold encodable. rewrite !utf8_len_defined. intros H x Hx.
  apply lower_from_image in Hx as [[Hx _]|[_ Hx]]; auto.
Qed.

(** On ASCII text [lower] changes the capitals only. *)
Lemma lower_from_ascii before s :
  Forall (fun c => (c < 128)%N) s -> lower_from before s = map lower_char s.
Proof.
  intros H. revert before. induction H as [|c s Hc _ IH]; intros before;
    simpl; [reflexivity|].
  replace (c =? 931)%N with false by (symmetry; apply N.eqb_neq; lia).
  unfold to_lower_full.
  replace (c <? 128)%N with true by (symmetry; apply N.ltb_lt; lia).
  simpl. now rewrite IH.
Qed.

Lemma lower_ascii s :
  Forall (fun c => (c < 128)%N) s -> lower s = map lower_char s.
Proof. apply lower_from_ascii. Qed.

(** *** Letter case of ASCII letters *)

Lemma capitals_classes :
  forallb (fun n => let c := N.of_nat n in
                    is_cased c && is_cased (c + 32)%N
                    && negb (is_case_ignorable c)
                    && negb (is_case_ignorable (c + 32)%N))
          (seq 65 26) = true.
Proof. vm_compute. reflexivity. Qed.

Lemma capital_classes c :
  is_capital c = true ->
  is_cased c = true /\ is_cased (c + 32)%N = true /\
  is_case_ignorable c = false /\ is_case_ignorable (c + 32)%N = false.
Proof.
  intros H. apply andb_true_iff in H as [H1 H2]. apply N.leb_le in H1, H2.
  pose proof (proj1 (forallb_forall _ _) capitals_classes (N.to_nat c)) as H.
  cbv beta zeta in H. rewrite N2Nat.id in H.
  specialize (H ltac:(apply in_seq; lia)).
  apply andb_true_iff in H as [H H4]. apply andb_true_iff in H as [H H3].
  apply andb_true_iff in H as [H H0].
  apply negb_true_iff in H3, H4. auto.
Qed.

Lemma same_letterb_cases a b :
  same_letterb a b = true ->
  a = b \/ (is_capital a = true /\ b = (a + 32)%N)
  \/ (is_capital b = true /\ a = (b + 32)%N).
Proof.
  unfold same_letterb. intros H.
  apply orb_true_iff in H as [H|H]; [apply orb_true_iff in H as [H|H]|].
  - left. now apply N.eqb_eq.
  - right. left. apply andb_true_iff in H as [H1 H2].
    apply N.eqb_eq in H2. auto.
  - right. right. apply andb_true_iff in H as [H1 H2].
    apply N.eqb_eq in H2. auto.
Qed.

Lemma capital_to_lower_full c :
  is_capital c = true ->
  to_lower_full c = to_lower_full (c + 32)%N /\
  (c =? 931)%N = false /\ (c + 32 =? 931)%N = false.
Proof.
  intros H. apply andb_true_iff in H as [H1 H2]. apply N.leb_le in H1, H2.
  split; [|split; apply N.eqb_neq; lia].
  unfold to_lower_full, lower_char.
  replace (c <? 128)%N with true by (symmetry; apply N.ltb_lt; lia).
  replace (c + 32 <? 128)%N with true by (symmetry; apply N.ltb_lt; lia).
  replace (65 <=? c)%N with true by (symmetry; apply N.leb_le; lia).
  replace (c <=? 90)%N with true by (symmetry; apply N.leb_le; lia).
  replace (c + 32 <=? 90)%N with false by (symmetry; apply N.leb_gt; lia).
  now rewrite andb_false_r.
Qed.

(** Two code points that are the same letter are lower-cased alike and
    count alike in the context of a sigma. *)
Lemma same_letterb_alike a b :
  same_letterb a b = true ->
  to_lower_full a = to_lower_full b /\
  (a =? 931)%N = (b =? 931)%N /\
  is_cased a = is_cased b /\
  is_case_ignorable a = is_case_ignorable b.
Proof.
  intros H. apply same_letterb_cases in H as [->|[[H ->]|[H ->]]]; [auto| |];
    destruct (capital_classes _ H) as (H1 & H2 & H3 & H4);
    destruct (capital_to_lower_full _ H) as (H5 & H6 & H7);
    repeat split; congruence.
Qed.

Lemma skip_case_ignorable_variant a b :
  case_variantb a b = true ->
  case_variantb (skip_case_ignorable a) (skip_case_ignorable b) = true.
Proof.
  revert b. induction a as [|x a IH]; intros [|y b]; simpl;
    try discriminate; [reflexivity|].
  intros H. apply andb_true_iff in H as [Hxy Hab].
  destruct (same_letterb_alike _ _ Hxy) as (_ & _ & _ & <-).
  destruct (is_case_ignorable x); [now apply IH|].
  simpl. now rewrite Hxy, Hab.
Qed.

Lemma final_sigma_variant a b a' b' :
  case_variantb a b = true -> case_variantb a' b' = true ->
  final_sigma a a' = final_sigma b b'.
Proof.
  intros H H'. apply skip_case_ignorable_variant in H, H'.
  unfold final_sigma.
  destruct (skip_case_ignorable a) as [|x r], (skip_case_ignorable b) as [|y s];
    simpl in H; try discriminate; [reflexivity|].
  apply andb_true_iff in H as [Hxy _].
  destruct (same_letterb_alike _ _ Hxy) as (_ & _ & <- & _). f_equal.
  destruct (skip_case_ignorable a') as [|x' r'],
           (skip_case_ignorable b') as [|y' s'];
    simpl in H'; try discriminate; [reflexivity|].
  apply andb_true_iff in H' as [Hxy' _].
  now destruct (same_letterb_alike _ _ Hxy') as (_ & _ & <- & _).
Qed.

Lemma lower_from_variant before1 before2 a b :
  case_variantb before1 before2 = true -> case_variantb a b = true ->
  lower_from before1 a = lower_from before2 b.
Proof.
  revert b before1 before2. induction a as [|x a IH]; intros [|y b] b1 b2 Hb H;
    simpl in *; try discriminate; [reflexivity|].
  apply andb_true_iff in H as [Hxy Hab].
  destruct (same_letterb_alike _ _ Hxy) as (E1 & E2 & _).
  rewrite <- E2, <- E1, (final_sigma_variant b1 b2 a b Hb Hab).
  f_equal. apply IH; [|exact Hab]. simpl. now rewrite Hxy, Hb.
Qed.

(** Texts that differ in the case of ASCII letters only are lower-cased to
    the same text. *)
Lemma lower_case_variant a b : case_variantb a b = true -> lower a = lower b.
Proof. now apply lower_from_variant. Qed.

(** ** The shape of one iteration and of the loops *)

Section Shape.

Variables max_output_size_kb max_file_size_kb : Z.

Local Abbreviation process_file' := (process_file max_output_size_kb max_file_size_kb).
Local Abbreviation for_files' := (for_files max_output_size_kb max_file_size_kb).
Local Abbreviation visit' := (visit max_output_size_kb max_file_size_kb).
Local Abbreviation walk' := (walk max_output_size_kb max_file_size_kb).
Local Abbreviation max_bytes := (max_output_size_bytes max_output_size_kb).

Lemma process_file_dirs root f st dirs st' dirs' fl :
  process_file' root f st dirs = (st', dirs', fl) -> dirs' = dirs \/ dirs' = [].
Proof.
  file_cases; intros [= <- <- <-]; auto.
Qed.

Lemma for_files_dirs root files st dirs st' dirs' :
  for_files' root files st dirs = (st', dirs') -> dirs' = dirs \/ dirs' = [].
Proof.
  revert st dirs.
  induction files as [|f files IH]; simpl; intros st dirs.
  - intros [= <- <-]. auto.
  - destruct (process_file' root f st dirs) as [[st1 dirs1] []] eqn:E.
    + intros H. apply IH in H. apply process_file_dirs in E.
      destruct H as [->| ->], E as [->| ->]; auto.
    + intros [= <- <-]. now apply process_file_dirs in E.
Qed.

Lemma stack_size_app s1 s2 :
  stack_size (s1 ++ s2) = (stack_size s1 + stack_size s2)%nat.
Proof.
  induction s1 as [|x s1 IH]; simpl; [reflexivity|]. rewrite IH. lia.
Qed.

Lemma stack_size_children (root : list pystr) (keep : dir -> bool) ds :
  (stack_size (map (fun c => (root ++ [dir_name c], c)) (filter keep ds))
   <= fold_right (fun c n => dir_size c + n) O ds)%nat.
Proof.
  induction ds as [|c ds IH]; simpl; [lia|].
  destruct (keep c); simpl; lia.
Qed.

Lemma visit_dirs root d st st' dirs fl :
  visit' root d st = (st', dirs, fl) ->
  dirs = [] \/
  dirs = filter (fun c => negb (py_in (dir_name c) (exclude_dirs st)))
                (dir_subdirs d).
Proof.
  unfold visit. cbv zeta.
  destruct (for_files' _ _ _ _) as [st1 dirs1] eqn:E.
  apply for_files_dirs in E.
  destruct (_ >=? _); intros [= <- <- <-]; destruct E as [->| ->]; auto.
Qed.

(** [os.walk] ends: fuel for every directory of the stack is enough. *)
Lemma walk_total fuel stack st :
  (stack_size stack <= fuel)%nat -> exists st', walk' fuel stack st = Some st'.
Proof.
  revert stack st.
  induction fuel as [|fuel IH]; intros [|[root d] stack] st Hsz; simpl.
  - eauto.
  - simpl in Hsz. destruct d; simpl in Hsz. lia.
  - eauto.
  - destruct (visit' root d st) as [[st1 dirs] []] eqn:E; [|eauto].
    apply IH. rewrite stack_size_app.
    simpl in Hsz. destruct d as [n fs ds]; simpl in Hsz.
    apply visit_dirs in E. simpl in E.
    destruct E as [->| ->].
    + simpl. lia.
    + pose proof (stack_size_children root
        (fun c => negb (py_in (dir_name c) (exclude_dirs st))) ds). lia.
Qed.

End Shape.

(** ** An invariant principle for the traversal

    [P] holds while the traversal goes on and [Q] when it has ended;
    [pending] holds of every directory on the stack.  The hypotheses say
    that each piece of the loop body keeps them. *)

Section Invariant.

Variables max_output_size_kb max_file_size_kb : Z.

Local Abbreviation process_file' := (process_file max_output_size_kb max_file_size_kb).
Local Abbreviation for_files' := (for_files max_output_size_kb max_file_size_kb).
Local Abbreviation visit' := (visit max_output_size_kb max_file_size_kb).
Local Abbreviation walk' := (walk max_output_size_kb max_file_size_kb).
Local Abbreviation max_bytes := (max_output_size_bytes max_output_size_kb).

Variable pending : list pystr -> dir -> Prop.
Variables P Q : state -> Prop.

Hypothesis yield_ok :
  forall root d st, pending root d -> P st -> P (log (EvWalk root) st).
Hypothesis file_ok :
  forall root d f st dirs st' dirs' fl,
    pending root d -> In f (dir_files d) -> P st ->
    process_file' root f st dirs = (st', dirs', fl) ->
    match fl with Continue => P st' | Break => Q st' end.
Hypothesis end_ok : forall st, P st -> Q st.
Hypothesis resume_ok :
  forall st, Q st -> current_size_bytes st < max_bytes -> P st.
Hypothesis child_ok :
  forall root d st c,
    pending root d -> P st -> In c (dir_subdirs d) ->
    py_in (dir_name c) (exclude_dirs st) = false ->
    pending (root ++ [dir_name c]) c.

Lemma for_files_invariant root d files st dirs st' dirs' :
  pending root d -> incl files (dir_files d) -> P st ->
  for_files' root files st dirs = (st', dirs') -> Q st'.
Proof.
  intros HS. revert st dirs.
  induction files as [|f files IH]; simpl; intros st dirs Hin HP.
  - intros [= <- <-]. auto.
  - destruct (process_file' root f st dirs) as [[st1 dirs1] fl] eqn:E.
    pose proof (file_ok root d f st dirs st1 dirs1 fl HS
                        (Hin f (or_introl eq_refl)) HP E) as H.
    destruct fl.
    + apply IH; [|exact H]. intros x Hx. apply Hin. now right.
    + intros [= <- <-]. exact H.
Qed.

Lemma visit_invariant root d st st' dirs fl :
  pending root d -> P st -> visit' root d st = (st', dirs, fl) ->
  Q st' /\
  (fl = Continue ->
   P st' /\ Forall (fun x => pending (fst x) (snd x))
                   (map (fun c => (root ++ [dir_name c], c)) dirs)).
Proof.
  intros HS HP Hv.
  pose proof (visit_dirs _ _ _ _ _ _ _ _ Hv) as Hd.
  unfold visit in Hv. cbv zeta in Hv.
  destruct (for_files' _ _ _ _) as [st1 dirs1] eqn:E.
  assert (HQ : Q st1).
  { apply (for_files_invariant root d _ _ _ _ _ HS (incl_refl _)
                               (yield_ok root d st HS HP) E). }
  destruct (current_size_bytes st1 >=? max_bytes) eqn:Hc;
    injection Hv as <- <- <-; (split; [exact HQ|]); [discriminate|].
  intros _. split.
  - apply resume_ok; [exact HQ|].
    rewrite Z.geb_leb in Hc. apply Z.leb_gt in Hc. exact Hc.
  - destruct Hd as [->| ->]; [constructor|].
    apply Forall_forall. intros [r c] Hx.
    apply in_map_iff in Hx as (c' & [= <- <-] & Hc').
    apply filter_In in Hc' as [Hin Hk]. simpl.
    apply (child_ok root d st c'); auto.
    now apply negb_true_iff in Hk.
Qed.

Lemma walk_invariant fuel stack st st' :
  Forall (fun x => pending (fst x) (snd x)) stack -> P st ->
  walk' fuel stack st = Some st' -> Q st'.
Proof.
  revert stack st.
  induction fuel as [|fuel IH]; intros [|[root d] stack] st HS HP; simpl.
  - intros [= <-]. auto.
  - discriminate.
  - intros [= <-]. auto.
  - destruct (visit' root d st) as [[st1 dirs] fl] eqn:E.
    inversion HS as [|x l HSd HSl]; subst. simpl in HSd.
    destruct (visit_invariant _ _ _ _ _ _ HSd HP E) as [HQ Hc].
    destruct fl.
    + destruct (Hc eq_refl) as [HP1 HS1].
      apply IH; [|exact HP1]. apply Forall_app. split; assumption.
    + intros [= <-]. exact HQ.
Qed.

End Invariant.

(** ** The routine returns *)

Lemma traverse_total repo max_output_size_kb max_file_size_kb st :
  exists st', traverse repo max_output_size_kb max_file_size_kb st = Some st'.
Proof.
  apply walk_total. simpl. lia.
Qed.

Lemma generate_total repo_name repo max_output_size_kb max_file_size_kb inc exd exf :
  exists st,
    traverse repo max_output_size_kb max_file_size_kb (initial_state inc exd exf)
    = Some st /\
    generate_repo_knowledge_file repo_name repo max_output_size_kb
                                 max_file_size_kb inc exd exf
    = Some (Outcome st (write_document repo_name st) PyNone).
Proof.
  destruct (traverse_total repo max_output_size_kb max_file_size_kb
                           (initial_state inc exd exf)) as [st Hst].
  exists st. split; [exact Hst|].
  unfold generate_repo_knowledge_file. now rewrite Hst.
Qed.

(** ** What one iteration leaves alone and what it logs *)

Lemma process_file_frame mo mf root f st dirs st' dirs' fl :
  process_file mo mf root f st dirs = (st', dirs', fl) ->
  include_extensions st' = include_extensions st /\
  exclude_dirs st' = exclude_dirs st /\
  exclude_files st' = exclude_files st.
Proof.
  file_cases; intros [= <- <- <-]; simpl; auto.
Qed.

Lemma process_file_trace mo mf root f st dirs st' dirs' fl :
  process_file mo mf root f st dirs = (st', dirs', fl) ->
  exists evs, trace st' = trace st ++ evs /\
              Forall (fun e => ev_root e = root) evs.
Proof.
  file_cases; intros [= <- <- <-]; simpl;
    repeat rewrite <- app_assoc; eexists; (split; [reflexivity|]);
    simpl; repeat constructor.
Qed.

Lemma blocks_of_snoc t e : blocks_of (t ++ [e]) = blocks_of t ++ block_of e.
Proof.
  unfold blocks_of. rewrite flat_map_app. simpl. now rewrite app_nil_r.
Qed.

Lemma process_file_blocks mo mf root f st dirs st' dirs' fl :
  processed_content st = blocks_of (trace st) ->
  process_file mo mf root f st dirs = (st', dirs', fl) ->
  processed_content st' = blocks_of (trace st').
Proof.
  intros H.
  file_cases; intros [= <- <- <-]; simpl;
    repeat rewrite blocks_of_snoc; simpl;
    repeat match goal with E : read f = _ |- _ => rewrite E end;
    repeat rewrite app_nil_r; rewrite ?H; reflexivity.
Qed.

(** A property kept by the yield of a directory and by every iteration of
    the file loop holds when the traversal ends. *)
Lemma traverse_preserves (P : state -> Prop) repo mo mf st st' :
  (forall root st, P st -> P (log (EvWalk root) st)) ->
  (forall root f st dirs st' dirs' fl,
      P st -> process_file mo mf root f st dirs = (st', dirs', fl) -> P st') ->
  P st -> traverse repo mo mf st = Some st' -> P st'.
Proof.
  intros Hy Hf HP Ht.
  apply (walk_invariant mo mf (fun _ _ => True) P P) with (8 := Ht); auto.
  intros root d f st0 dirs st1 dirs1 fl _ _ HP0 E.
  destruct fl; eapply Hf; eauto.
Qed.

(** ** The caller's lists *)

(** C10. The routine never mutates the policy lists it was given: when it
    ends, each of [include_extensions], [exclude_dirs] and [exclude_files]
    that the caller supplied is the list it was before the call.  (The list
    the routine does change in place is [dirs], the one [os.walk] yields.) *)
Theorem policy_lists_not_mutated repo_name repo mo mf inc exd exf :
  exists o,
    generate_repo_knowledge_file repo_name repo mo mf inc exd exf = Some o /\
    (forall l, inc = Some l -> include_extensions (final o) = l) /\
    (forall l, exd = Some l -> exclude_dirs (final o) = l) /\
    (forall l, exf = Some l -> exclude_files (final o) = l).
Proof.
  destruct (generate_total repo_name repo mo mf inc exd exf) as (st & Ht & Hg).
  eexists. split; [exact Hg|]. simpl.
  assert (H : include_extensions st = or_default inc default_include_extensions /\
              exclude_dirs st = or_default exd default_exclude_dirs /\
              exclude_files st = or_default exf default_exclude_files).
  { apply (traverse_preserves
             (fun s => include_extensions s = or_default inc default_include_extensions /\
                       exclude_dirs s = or_default exd default_exclude_dirs /\
                       exclude_files s = or_default exf default_exclude_files)
             repo mo mf _ st) with (4 := Ht).
    - intros root s Hs. exact Hs.
    - intros root f s dirs s' dirs' fl Hs E.
      apply process_file_frame in E as (-> & -> & ->). exact Hs.
    - simpl. auto. }
  destruct H as (Hi & Hd & Hf).
  repeat split; intros l ->; simpl in *; assumption.
Qed.

(** ** Excluded directories *)

(** C4. A directory of the repository whose name is in the excluded set is
    never entered, nor is anything below it: every directory the walk
    yields and every file the run reaches, sizes, opens or appends lies on a
    path none of whose components is an excluded name.  The output is made
    of the blocks of the appended files and of nothing else, so no file at
    or below an excluded directory contributes to it, whatever its name. *)
Theorem excluded_dirs_never_entered repo_name repo mo mf inc exd exf :
  exists o,
    generate_repo_knowledge_file repo_name repo mo mf inc exd exf = Some o /\
    (forall e, In e (trace (final o)) ->
               clear_of (or_default exd default_exclude_dirs) (ev_root e)) /\
    processed_content (final o) = blocks_of (trace (final o)).
Proof.
  destruct (generate_total repo_name repo mo mf inc exd exf) as (st & Ht & Hg).
  eexists. split; [exact Hg|]. simpl.
  set (X := or_default exd default_exclude_dirs).
  split.
  - assert (H : exclude_dirs st = X /\
                Forall (fun e => clear_of X (ev_root e)) (trace st)).
    { apply (walk_invariant mo mf
               (fun root _ => clear_of X root)
               (fun s => exclude_dirs s = X /\
                         Forall (fun e => clear_of X (ev_root e)) (trace s))
               (fun s => exclude_dirs s = X /\
                         Forall (fun e => clear_of X (ev_root e)) (trace s)))
        with (8 := Ht).
      - intros root d s Hr [Hx Hs]. split; [exact Hx|]. simpl.
        apply Forall_app. split; [exact Hs|]. repeat constructor. exact Hr.
      - intros root d f s dirs s' dirs' fl Hr _ [Hx Hs] E.
        assert (exclude_dirs s' = X /\
                Forall (fun e => clear_of X (ev_root e)) (trace s')).
        { pose proof (process_file_frame _ _ _ _ _ _ _ _ _ E) as (_ & -> & _).
          split; [exact Hx|].
          apply process_file_trace in E as (evs & -> & Hevs).
          apply Forall_app. split; [exact Hs|].
          eapply Forall_impl; [|exact Hevs]. intros e ->. exact Hr. }
        destruct fl; assumption.
      - auto.
      - auto.
      - intros root d s c Hr [Hx _] _ Hc. unfold clear_of.
        apply Forall_app. split; [exact Hr|]. repeat constructor.
        rewrite Hx in Hc. now apply py_in_not_In.
      - repeat constructor.
      - simpl. split; [reflexivity|constructor]. }
    destruct H as [_ H]. intros e He.
    rewrite Forall_forall in H. now apply H.
  - apply (traverse_preserves
             (fun s => processed_content s = blocks_of (trace s))
             repo mo mf _ st) with (4 := Ht).
    + intros root s Hs. simpl. rewrite blocks_of_snoc. simpl.
      now rewrite app_nil_r.
    + intros root f s dirs s' dirs' fl Hs E.
      eapply process_file_blocks; eauto.
    + reflexivity.
Qed.

(** ** The two name tests *)

Lemma accepted_true st name :
  accepted st name = true <->
  py_in name (exclude_files st) = false /\
  py_in (lower (snd (splitext name))) (include_extensions st) = true.
Proof.
  unfold accepted. rewrite andb_true_iff, negb_true_iff. reflexivity.
Qed.

(** A file that fails either name test is skipped and nothing else happens. *)
Lemma rejected_file_skipped mo mf root f st dirs :
  accepted st (file_name f) = false ->
  process_file mo mf root f st dirs
  = (skip (log (EvFile root f) st), dirs, Continue).
Proof.
  unfold accepted, process_file. cbv zeta. state_simpl.
  destruct (py_in (file_name f) (exclude_files st)); [reflexivity|].
  simpl. intros ->. reflexivity.
Qed.

(** ** Counting *)

Lemma files_reached_app t1 t2 :
  files_reached (t1 ++ t2) = (files_reached t1 + files_reached t2)%nat.
Proof.
  unfold files_reached. now rewrite filter_app, length_app.
Qed.

Lemma process_file_counted mo mf root f st dirs st' dirs' fl :
  counted st ->
  process_file mo mf root f st dirs = (st', dirs', fl) -> counted st'.
Proof.
  unfold counted, body. intros [Hsum Hinc].
  file_cases; intros [= <- <- <-]; state_simpl;
    repeat rewrite files_reached_app; cbn [files_reached filter List.length];
    (split; [lia|]);
    try exact Hinc;
    rewrite ?join_snoc in *; rewrite ?length_app; cbn [List.length].
  - intros _.
    match goal with
    | E : utf8_len (_ ++ _) = Some _ |- _ =>
        rewrite utf8_len_app in E;
        destruct (utf8_len (join (processed_content st))); [|discriminate]
    end.
    rewrite Hinc by discriminate. lia.
  - intros _.
    match goal with
    | E : utf8_len (_ ++ _) = Some _ |- _ =>
        rewrite utf8_len_app in E;
        destruct (utf8_len (join (processed_content st))); [|discriminate]
    end.
    rewrite Hinc by discriminate. lia.
  - intros H. congruence.
Qed.

(** C3, as the code has it.  A call evaluates to [None]: the counts are not
    returned.  They are local variables, and at the end of the run every
    file the loop reached has been counted once, as included or as skipped;
    [included_count] is the number of blocks appended whenever the joined
    blocks encode (in particular whenever the document is written). *)
Theorem counts_kept_not_returned repo_name repo mo mf inc exd exf :
  exists o,
    generate_repo_knowledge_file repo_name repo mo mf inc exd exf = Some o /\
    returned o = PyNone /\
    (skipped_count (final o) + included_count (final o)
     = files_reached (trace (final o)))%nat /\
    (utf8_len (body (final o)) <> None ->
     included_count (final o) = List.length (processed_content (final o))).
Proof.
  destruct (generate_total repo_name repo mo mf inc exd exf) as (st & Ht & Hg).
  eexists. split; [exact Hg|]. simpl. split; [reflexivity|].
  apply (traverse_preserves counted repo mo mf _ st) with (4 := Ht).
  - intros root s [Hs Hi]. split; [|exact Hi]. state_simpl.
    rewrite files_reached_app. cbn. lia.
  - intros root f s dirs s' dirs' fl. apply process_file_counted.
  - split; [reflexivity|]. intros _. reflexivity.
Qed.

(** C3 as stated fails: on the repository with [a.py], [a.md] and a file
    excluded by name, two files are included and one is skipped, and the
    call does not evaluate to that pair. *)
Lemma counts_not_returned :
  exists o,
    generate_repo_knowledge_file (lit "repo") scenario_names 500 50
                                 None None None = Some o /\
    included_count (final o) = 2%nat /\
    skipped_count (final o) = 1%nat /\
    returned o <> PyIntPair (included_count (final o)) (skipped_count (final o)).
Proof.
  eexists. split; [vm_compute; reflexivity|].
  repeat split; discriminate.
Qed.

(** ** The per-file size limit *)

(** C5. A file that passed the name tests and whose size on disk exceeds
    [max_file_size_kb * 1024] is skipped: the iteration logs that it reached
    the file and asked for its size and nothing more (the file is not
    opened), appends no block, adds one to [skipped_count], and the loop goes
    on. *)
Theorem oversized_file_skipped mo mf root f st dirs size :
  accepted st (file_name f) = true ->
  getsize f = Some size ->
  size > mf * 1024 ->
  exists st',
    process_file mo mf root f st dirs = (st', dirs, Continue) /\
    trace st' = trace st ++ [EvFile root f; EvGetsize root f] /\
    processed_content st' = processed_content st /\
    current_size_bytes st' = current_size_bytes st /\
    skipped_count st' = S (skipped_count st) /\
    included_count st' = included_count st.
Proof.
  intros Hacc Hsize Hbig. apply accepted_true in Hacc as [Hname Hext].
  unfold process_file. cbv zeta. state_simpl.
  rewrite Hname, Hext, Hsize. cbn [negb].
  replace (size >? mf * 1024) with true by (symmetry; apply Z.gtb_lt; lia).
  eexists. split; [reflexivity|]. state_simpl.
  rewrite <- app_assoc. repeat split.
Qed.

Lemma oversized_file_skipped_witness :
  exists st',
    process_file 500 1 [] (sized_file "big.py" 2048)
                 (initial_state None None None) [] = (st', [], Continue) /\
    trace st' = [EvFile [] (sized_file "big.py" 2048);
                 EvGetsize [] (sized_file "big.py" 2048)] /\
    processed_content st' = [] /\
    current_size_bytes st' = 0 /\
    skipped_count st' = 1%nat /\
    included_count st' = O.
Proof.
  apply (oversized_file_skipped 500 1 [] (sized_file "big.py" 2048)
                                (initial_state None None None) [] 2048).
  - vm_compute. reflexivity.
  - reflexivity.
  - lia.
Defined.

(** ** Failures on one file *)





(** C6 fails on a file whose processing raises after its block was
    appended.  The name of [undecodable_name] holds a lone surrogate, so
    encoding the joined blocks (line 145) raises; the handler of line 154
    counts the file as skipped, and its block stays in [processed_content]
    while [current_size_bytes] and [included_count] keep their old values.
    On the repository that holds this file and [b.py], both end up appended
    and counted as skipped, and writing the document fails. *)
Theorem encode_failure_keeps_block :
  (exists st',
     process_file 500 50 [] undecodable_name (initial_state None None None) []
     = (st', [], Continue) /\
     processed_content st'
     = [render (file_name undecodable_name) (lit ".py") (lit "x")] /\
     current_size_bytes st' = 0 /\
     skipped_count st' = 1%nat /\
     included_count st' = O) /\
  (exists o,
     generate_repo_knowledge_file (lit "repo") scenario_surrogate 500 50
                                  None None None = Some o /\
     List.length (processed_content (final o)) = 2%nat /\
     included_count (final o) = O /\
     skipped_count (final o) = 2%nat /\
     output o = WriteError).
Proof.
  split; eexists; (split; [vm_compute; reflexivity|]); repeat split.
Qed.

(** ** Rendering *)

Lemma lang_spec_tag file_ext :
  py_in file_ext code_extensions = true -> lang file_ext = spec_tag file_ext.
Proof.
  intros H. apply py_in_In in H. vm_compute in H.
  repeat (destruct H as [<-|H]; [reflexivity|]). contradiction.
Qed.

Lemma render_spec_block relative_path file_ext content :
  render relative_path file_ext content
  = spec_block relative_path file_ext content.
Proof.
  unfold render, spec_block, file_header.
  destruct (py_in file_ext code_extensions) eqn:E.
  - rewrite (lang_spec_tag _ E). now repeat rewrite <- app_assoc.
  - now repeat rewrite <- app_assoc.
Qed.

(** C7, as the code has it.  The block appended for an included file is
    the header line [## File: {relative_path}] and a blank line, followed,
    when the lower-cased extension ([file_ext], line 85) is one of
    [code_extensions], by the content in a fence whose tag is the
    lower-cased extension without its dot ([yaml] for [.yml]), and
    otherwise by the content as it is.  The extension as it is spelt in the
    file name decides nothing. *)
Theorem included_block_format mo mf root f st dirs size content :
  accepted st (file_name f) = true ->
  getsize f = Some size ->
  size <= mf * 1024 ->
  current_size_bytes st + size <= max_output_size_bytes mo ->
  read f = Some content ->
  exists st' dirs' fl,
    process_file mo mf root f st dirs = (st', dirs', fl) /\
    processed_content st'
    = processed_content st ++
      [spec_block (relpath root (file_name f))
                  (lower (snd (splitext (file_name f)))) content].
Proof.
  intros Hacc Hsize Hfile Hbudget Hread.
  apply accepted_true in Hacc as [Hname Hext].
  unfold process_file. cbv zeta. state_simpl.
  rewrite Hname, Hext, Hsize, Hread. cbn [negb].
  replace (size >? mf * 1024) with false by (symmetry; rewrite Z.gtb_ltb; apply Z.ltb_ge; lia).
  replace (current_size_bytes st + size >? max_output_size_bytes mo)
    with false by (symmetry; rewrite Z.gtb_ltb; apply Z.ltb_ge; lia).
  rewrite render_spec_block.
  destruct (utf8_len _) as [n|]; [destruct (_ >=? _)|];
    do 3 eexists; (split; [reflexivity|]); reflexivity.
Qed.

Lemma included_block_format_witness :
  exists st' dirs' fl,
    process_file 500 50 [lit "conf"] (text_file "ci.YML" "on: push")
                 (initial_state None None None) [] = (st', dirs', fl) /\
    processed_content st'
    = [lit "## File: conf/ci.YML" ++ NL ++ NL ++
       lit "```yaml" ++ NL ++ lit "on: push" ++ NL ++ lit "```" ++ NL ++ NL].
Proof.
  apply (included_block_format 500 50 [lit "conf"] (text_file "ci.YML" "on: push")
                               (initial_state None None None) [] 8 (lit "on: push")).
  - vm_compute. reflexivity.
  - reflexivity.
  - lia.
  - vm_compute. discriminate.
  - reflexivity.
Defined.

(** C7 as stated fails.  The claim decides the fence and takes the tag
    from the extension of the file; for [X.PY] that extension, [.PY], is
    not one of [code_extensions], so the claim has the content appended as
    it is, while the code fences it with the tag [py]. *)
Lemma block_ignores_spelling_of_extension :
  ~ (forall mo mf root f st dirs size content,
        accepted st (file_name f) = true ->
        getsize f = Some size ->
        size <= mf * 1024 ->
        current_size_bytes st + size <= max_output_size_bytes mo ->
        read f = Some content ->
        exists st' dirs' fl,
          process_file mo mf root f st dirs = (st', dirs', fl) /\
          processed_content st'
          = processed_content st ++
            [spec_block (relpath root (file_name f))
                        (snd (splitext (file_name f))) content]).
Proof.
  intros H.
  destruct (H 500 50 [] (text_file "X.PY" "pass")
              (initial_state None None None) [] 4 (lit "pass"))
    as (st' & dirs' & fl & Hrun & Hblock);
    [reflexivity|reflexivity|lia|vm_compute; discriminate|reflexivity|].
  vm_compute in Hrun. injection Hrun as <- _ _.
  vm_compute in Hblock. discriminate.
Qed.

(** The blocks of three files whose extensions have capitals, next to what
    the wording of C7 gives for them: a fence [py] against no fence, the
    tag [dockerfile] against [Dockerfile], and a fence [yaml] against no
    fence. *)
Example blocks_of_capital_extensions :
  let block (name content : string) :=
    processed_content
      (fst (fst (process_file 500 50 [] (text_file name content)
                              (initial_state None None None) []))) in
  let stated (name content : string) :=
    [spec_block (lit name) (snd (splitext (lit name))) (lit content)] in
  (block "X.PY"%string "pass"%string
   = [lit "## File: X.PY" ++ NL ++ NL ++
      lit "```py" ++ NL ++ lit "pass" ++ NL ++ lit "```" ++ NL ++ NL] /\
   stated "X.PY"%string "pass"%string
   = [lit "## File: X.PY" ++ NL ++ NL ++ lit "pass" ++ NL ++ NL]) /\
  (block "e.Dockerfile"%string "FROM scratch"%string
   = [lit "## File: e.Dockerfile" ++ NL ++ NL ++
      lit "```dockerfile" ++ NL ++ lit "FROM scratch" ++ NL ++
      lit "```" ++ NL ++ NL] /\
   stated "e.Dockerfile"%string "FROM scratch"%string
   = [lit "## File: e.Dockerfile" ++ NL ++ NL ++
      lit "```Dockerfile" ++ NL ++ lit "FROM scratch" ++ NL ++
      lit "```" ++ NL ++ NL]) /\
  (block "ci.YML"%string "on: push"%string
   = [lit "## File: ci.YML" ++ NL ++ NL ++
      lit "```yaml" ++ NL ++ lit "on: push" ++ NL ++ lit "```" ++ NL ++ NL] /\
   stated "ci.YML"%string "on: push"%string
   = [lit "## File: ci.YML" ++ NL ++ NL ++ lit "on: push" ++ NL ++ NL]).
Proof. vm_compute. repeat split. Qed.

(** ** Extensions *)

Lemma rfind_from_absent c p i acc : ~ In c p -> rfind_from c p i acc = acc.
Proof.
  revert i acc; induction p as [|x p IH]; simpl; intros i acc H; [reflexivity|].
  destruct (N.eqb x c) eqn:E.
  - apply N.eqb_eq in E. exfalso. apply H. now left.
  - apply IH. intros Hin. apply H. now right.
Qed.

Lemma rfind_from_lower_bound c p i acc :
  -1 <= acc -> 0 <= i -> -1 <= rfind_from c p i acc.
Proof.
  revert i acc; induction p as [|x p IH]; simpl; intros i acc Ha Hi; [exact Ha|].
  apply IH; [|lia]. destruct (N.eqb x c); lia.
Qed.

(** A name with no dot has no extension. *)
Lemma splitext_no_dot name : ~ In DOT name -> splitext name = (name, []).
Proof.
  intros H. unfold splitext, rfind. cbv zeta.
  rewrite (rfind_from_absent DOT name 0 (-1) H).
  pose proof (rfind_from_lower_bound SLASH name 0 (-1) ltac:(lia) ltac:(lia)) as Hs.
  replace (-1 >? rfind_from SLASH name 0 (-1)) with false
    by (symmetry; rewrite Z.gtb_ltb; apply Z.ltb_ge; lia).
  reflexivity.
Qed.

Lemma default_extensions_nonempty : ~ In [] default_include_extensions.
Proof.
  apply py_in_not_In. reflexivity.
Qed.

(** C9. A file whose name has no extension ([splitext] gives the empty
    string, as it does for every name without a dot) fails the extension
    test, with the default [include_extensions] and with any list of the
    caller's that does not hold the empty string: the iteration counts the
    file as skipped and does nothing else, so no block is appended for it. *)
Theorem no_extension_file_skipped mo mf root f st dirs inc :
  include_extensions st = or_default inc default_include_extensions ->
  (forall l, inc = Some l -> ~ In [] l) ->
  snd (splitext (file_name f)) = [] ->
  process_file mo mf root f st dirs
  = (skip (log (EvFile root f) st), dirs, Continue) /\
  processed_content (skip (log (EvFile root f) st)) = processed_content st.
Proof.
  intros Hst Hinc Hext. split; [|reflexivity].
  apply rejected_file_skipped. unfold accepted.
  rewrite Hext, Hst, lower_nil.
  assert (H : ~ In [] (or_default inc default_include_extensions)).
  { destruct inc as [l|]; [now apply Hinc|exact default_extensions_nonempty]. }
  apply py_in_not_In in H. rewrite H. apply andb_false_r.
Qed.

Lemma no_extension_file_skipped_witness :
  process_file 500 50 [] (text_file "Dockerfile" "FROM scratch")
               (initial_state None None None) []
  = (skip (log (EvFile [] (text_file "Dockerfile" "FROM scratch"))
               (initial_state None None None)), [], Continue) /\
  processed_content
    (skip (log (EvFile [] (text_file "Dockerfile" "FROM scratch"))
               (initial_state None None None))) = [].
Proof.
  apply (no_extension_file_skipped 500 50 [] (text_file "Dockerfile" "FROM scratch")
                                   (initial_state None None None) [] None).
  - reflexivity.
  - discriminate.
  - reflexivity.
Defined.

(** ** Letter case *)

(** C8, as the code has it.  The extension test looks at the lower-cased
    extension, and lower-casing sends an ASCII capital and its small letter
    to the same code point wherever they stand: two names whose extensions
    differ in the case of ASCII letters only get the same decision,
    provided neither name is in [exclude_files].  The tests against
    [exclude_files] and [exclude_dirs] are by exact string equality: with
    the default lists [package-lock.json] is rejected and
    [Package-lock.json] accepted, and of the subdirectories [build] and
    [Build] only [Build] is kept for descent. *)
Theorem extension_case_insensitive_names_exact :
  (forall st n1 n2,
      case_variantb (snd (splitext n1)) (snd (splitext n2)) = true ->
      py_in n1 (exclude_files st) = false ->
      py_in n2 (exclude_files st) = false ->
      accepted st n1 = accepted st n2) /\
  (forall st name,
      In name (exclude_files st) -> accepted st name = false) /\
  (accepted (initial_state None None None) (lit "package-lock.json") = false /\
   accepted (initial_state None None None) (lit "Package-lock.json") = true) /\
  snd (fst (visit 500 50 [] scenario_case (initial_state None None None)))
  = [Dir (lit "Build") [] []].
Proof.
  split; [|split; [|split]].
  - intros st n1 n2 Hext H1 H2. unfold accepted.
    now rewrite (lower_case_variant _ _ Hext), H1, H2.
  - intros st name H. unfold accepted.
    apply py_in_In in H. now rewrite H.
  - split; reflexivity.
  - reflexivity.
Qed.

Lemma extension_case_insensitive_witness :
  accepted (initial_state None None None) (lit "main.py")
  = accepted (initial_state None None None) (lit "main.Py").
Proof.
  apply (proj1 extension_case_insensitive_names_exact
               (initial_state None None None) (lit "main.py") (lit "main.Py"));
    reflexivity.
Defined.

(** C8 as stated fails: [npm-debug.log] and [npm-debug.LOG] differ only in
    the letter case of the extension, and of ASCII letters at that; the
    first is rejected (it is in the default [exclude_files]) and the second
    is accepted. *)
Lemma extension_case_changes_decision :
  ~ (forall st n1 n2,
        fst (splitext n1) = fst (splitext n2) ->
        case_variantb (snd (splitext n1)) (snd (splitext n2)) = true ->
        accepted st n1 = accepted st n2).
Proof.
  intros H.
  specialize (H (initial_state None None None)
                (lit "npm-debug.log") (lit "npm-debug.LOG") eq_refl eq_refl).
  vm_compute in H. discriminate.
Qed.

(** Outside ASCII a change of letter case can change the decision, with
    no name excluded: the capital sigma at the end of [.\u03a3\u0391\u03a3]
    is lower-cased to a final sigma, so with [.\u03c3\u03b1\u03c2] as the only
    included extension the name [x.\u03a3\u0391\u03a3] is accepted and
    [x.\u03c3\u03b1\u03c3] is not. *)
Example sigma_case_changes_decision :
  let st := initial_state (Some [[46; 963; 945; 962]%N]) None None in
  lower [46; 931; 913; 931]%N = [46; 963; 945; 962]%N /\
  lower [46; 963; 945; 963]%N = [46; 963; 945; 963]%N /\
  accepted st [120; 46; 931; 913; 931]%N = true /\
  accepted st [120; 46; 963; 945; 963]%N = false.
Proof. vm_compute. repeat split. Qed.

(** The Kelvin sign is lower-cased to [k]: [README.mar\u212adown] has the
    extension [.markdown] for the test and is accepted. *)
Example kelvin_sign_extension :
  accepted (initial_state None None None)
           (lit "README.mar" ++ [8490%N] ++ lit "down") = true.
Proof. reflexivity. Qed.

(** ** Budget stops *)

Lemma no_post_snoc t e :
  no_post t -> (forall root f, e <> EvBudgetPost root f) -> no_post (t ++ [e]).
Proof.
  intros Ht He root f Hin. apply in_app_or in Hin as [Hin|[Hin|[]]].
  - exact (Ht root f Hin).
  - exact (He root f Hin).
Qed.

Lemma process_file_post mo mf root f st dirs st' dirs' fl :
  no_post (trace st) ->
  process_file mo mf root f st dirs = (st', dirs', fl) ->
  no_post (trace st') \/
  (fl = Break /\ stopped_by_post (max_output_size_bytes mo) st').
Proof.
  intros H.
  file_cases; intros [= <- <- <-]; state_simpl;
    try (left; repeat (apply no_post_snoc; [|discriminate]); exact H).
  right. split; [reflexivity|].
  eexists _, root, f. split; [reflexivity|]. split.
  - repeat (apply no_post_snoc; [|discriminate]). exact H.
  - match goal with E : (_ >=? _) = true |- _ => rewrite Z.geb_leb in E; apply Z.leb_le in E end.
    state_simpl. lia.
Qed.

(** The post-check stop does end the run: whatever the repository, nothing
    follows an [EvBudgetPost] in the trace. *)
Lemma post_check_ends_run repo_name repo mo mf inc exd exf :
  exists o,
    generate_repo_knowledge_file repo_name repo mo mf inc exd exf = Some o /\
    forall t1 t2 root f,
      trace (final o) = t1 ++ EvBudgetPost root f :: t2 -> t2 = [].
Proof.
  destruct (generate_total repo_name repo mo mf inc exd exf) as (st & Ht & Hg).
  eexists. split; [exact Hg|]. simpl.
  assert (H : no_post (trace st) \/ stopped_by_post (max_output_size_bytes mo) st).
  { apply (walk_invariant mo mf (fun _ _ => True)
             (fun s => no_post (trace s))
             (fun s => no_post (trace s) \/
                       stopped_by_post (max_output_size_bytes mo) s))
      with (8 := Ht); auto.
    - intros root d s _ Hs. state_simpl. apply no_post_snoc; [exact Hs|discriminate].
    - intros root d f s dirs s' dirs' fl _ _ Hs E.
      destruct (process_file_post _ _ _ _ _ _ _ _ _ Hs E) as [H|[-> H]];
        [destruct fl|]; auto.
    - intros s [Hs|(t & root & f & _ & _ & Hc)] Hlt; [exact Hs|lia].
    - intros root f Hin. destruct Hin. }
  intros t1 t2 root f Htr.
  destruct H as [H|(t & root' & f' & Ht' & Hnp & _)].
  - exfalso. apply (H root f). rewrite Htr. apply in_elt.
  - destruct (exists_last (l := EvBudgetPost root f :: t2) ltac:(discriminate))
      as (l' & x & Hl).
    destruct t2 as [|e t2]; [reflexivity|exfalso].
    rewrite Htr in Ht'.
    destruct l' as [|y l']; [destruct t2; discriminate|].
    injection Hl as <- Hl.
    rewrite Hl, app_comm_cons, app_assoc in Ht'.
    apply app_inj_tail in Ht' as [<- _].
    apply (Hnp root f). apply in_or_app. right. now left.
Qed.

(** C1 fails at the pre-read stop.  In [scenario_siblings] the file
    [a/big.py] (2000 bytes) trips the pre-read check for a budget of 1 KB:
    the rest of directory [a] is given up and its subdirectory [deep] is
    pruned, but [current_size_bytes] is still below the budget, so the
    [break] of line 160 is not taken and the walk goes on to the sibling
    directory [b], whose file [small.py] is sized, opened and appended. *)
Theorem pre_check_stop_goes_on_to_siblings :
  let big := sized_file "big.py" 2000 in
  let small := text_file "small.py" "x = 1" in
  exists o,
    generate_repo_knowledge_file (lit "repo") scenario_siblings 1 50
                                 None None None = Some o /\
    trace (final o)
    = [ EvWalk [];
        EvWalk [lit "a"]; EvFile [lit "a"] big; EvGetsize [lit "a"] big;
        EvBudgetPre [lit "a"] big;
        EvWalk [lit "b"]; EvFile [lit "b"] small; EvGetsize [lit "b"] small;
        EvOpen [lit "b"] small; EvAppend [lit "b"] small ] /\
    included_count (final o) = 1%nat /\
    skipped_count (final o) = 1%nat.
Proof.
  cbv zeta. eexists. split; [vm_compute; reflexivity|].
  repeat split.
Qed.

(** ** The size of the output *)

Lemma all_files_file P d f : all_files P d -> In f (dir_files d) -> P f.
Proof.
  destruct d as [n fs ds]. simpl. intros [H _] Hin.
  rewrite Forall_forall in H. now apply H.
Qed.

Lemma all_files_subdir P d c :
  all_files P d -> In c (dir_subdirs d) -> all_files P c.
Proof.
  destruct d as [n fs ds]. cbn [all_files dir_subdirs]. intros [_ H].
  induction ds as [|x ds IH]; simpl in *; intros Hin; [contradiction|].
  destruct H as [Hx Hds]. destruct Hin as [<-|Hin]; auto.
Qed.

(** The bytes of a block are those of its content and the overhead. *)
Lemma render_len relative_path file_ext content :
  utf8_len (render relative_path file_ext content)
  = match utf8_len (render relative_path file_ext []), utf8_len content with
    | Some k, Some l => Some (k + l)
    | _, _ => None
    end.
Proof.
  unfold render, file_header.
  destruct (py_in file_ext code_extensions);
    repeat rewrite utf8_len_app; cbn [utf8_len app];
    repeat match goal with
      | |- context [utf8_len ?s] =>
          match s with
          | _ :: _ => fail 1
          | [] => fail 1
          | _ => destruct (utf8_len s)
          end
      end;
    cbn; try reflexivity; f_equal; lia.
Qed.

Lemma going_ended max_bytes st : going max_bytes st -> ended max_bytes st.
Proof.
  intros [H|[H [H'|H']]]; [left|right|right]; auto.
Qed.

Lemma process_file_budget mo mf root f st dirs st' dirs' fl :
  content_fits f ->
  going (max_output_size_bytes mo) st ->
  process_file mo mf root f st dirs = (st', dirs', fl) ->
  going (max_output_size_bytes mo) st' \/
  (fl = Break /\ ended (max_output_size_bytes mo) st').
Proof.
  intros Hfit Hgo.
  file_cases; intros [= <- <- <-]; try (left; exact Hgo).
  - (* appended, sized, budget reached *)
    right. split; [reflexivity|].
    unfold going, ended, body in *. state_simpl.
    rewrite join_snoc in *.
    match goal with E : utf8_len (_ ++ _) = Some ?n |- _ =>
      rename E into Hn; pose proof Hn as Hn' end.
    rewrite utf8_len_app, render_len in Hn'.
    destruct (utf8_len (join (processed_content st))) as [b|] eqn:Hb;
      [|discriminate].
    destruct (utf8_len (render _ _ [])) as [k|] eqn:Hk; [|discriminate].
    destruct (Hfit _ ltac:(eassumption)) as (size & l & Hsize & Hl & Hle).
    rewrite Hl in Hn'. injection Hn' as Hn'.
    right. split; [exact Hn|]. right. right.
    eexists _, root, f, k. split; [reflexivity|]. split; [exact Hk|].
    destruct Hgo as [Hgo|[Hgo _]]; [discriminate|]. injection Hgo as Hgo.
    match goal with E : getsize f = Some ?z |- _ =>
      rewrite E in Hsize; injection Hsize as -> end.
    match goal with E : (_ + size >? _) = false |- _ =>
      rewrite Z.gtb_ltb in E; apply Z.ltb_ge in E end.
    lia.
  - (* appended, sized, below the budget *)
    left. unfold going, body in *. state_simpl. right.
    split; [assumption|]. right.
    match goal with E : (_ >=? _) = false |- _ =>
      rewrite Z.geb_leb in E; apply Z.leb_gt in E; exact E end.
  - (* appended, encoding raised *)
    left. unfold going, body in *. state_simpl. left. assumption.
Qed.

Lemma traverse_budget repo mo mf st st' :
  all_files content_fits repo ->
  going (max_output_size_bytes mo) st ->
  traverse repo mo mf st = Some st' ->
  ended (max_output_size_bytes mo) st'.
Proof.
  intros Hrepo Hgo Ht.
  apply (walk_invariant mo mf (fun _ d => all_files content_fits d)
           (going (max_output_size_bytes mo))
           (ended (max_output_size_bytes mo))) with (8 := Ht);
    auto using going_ended.
  - intros root d f s dirs s' dirs' fl Hd Hin Hs E.
    destruct (process_file_budget _ _ _ _ _ _ _ _ _
                (all_files_file _ _ _ Hd Hin) Hs E) as [H|[-> H]];
      [destruct fl|]; auto using going_ended.
  - intros s [H|[H [H'|[H'|(t & root & f & k & _ & _ & _)]]]] Hlt;
      [left|right|right|right]; auto.
  - intros root d s c Hd _ Hin _. eapply all_files_subdir; eauto.
Qed.

Lemma write_document_Wrote repo_name st doc :
  write_document repo_name st = Wrote doc ->
  processed_content st <> [] /\
  doc = repo_header repo_name st ++ body st /\
  exists m, utf8_len doc = Some m.
Proof.
  unfold write_document, body.
  remember (repo_header repo_name st ++ join (processed_content st)) as d.
  destruct (processed_content st); [discriminate|].
  destruct (utf8_len d) as [m|] eqn:E; [|discriminate].
  intros [= <-]. split; [discriminate|]. split; [reflexivity|].
  exists m. exact E.
Qed.

(** C2, as the code has it.  When reading a file never gives more bytes
    than its size on disk, the joined blocks are within the budget
    [max_output_size_kb * 1024], or exceed it by no more than the rendering
    overhead of one file, the one whose appending made the post-check stop
    the run.  The document that is written is the repository header
    followed by the joined blocks, so its length is that of the header more
    than this. *)
Theorem body_within_budget repo_name repo mo mf inc exd exf :
  all_files content_fits repo ->
  exists o,
    generate_repo_knowledge_file repo_name repo mo mf inc exd exf = Some o /\
    forall doc,
      output o = Wrote doc ->
      doc = repo_header repo_name (final o) ++ body (final o) /\
      exists h n,
        utf8_len (repo_header repo_name (final o)) = Some h /\
        utf8_len (body (final o)) = Some n /\
        utf8_len doc = Some (h + n) /\
        (n <= max_output_size_bytes mo \/
         exists t root f k,
           trace (final o) = t ++ [EvBudgetPost root f] /\
           overhead root f = Some k /\
           n <= max_output_size_bytes mo + k).
Proof.
  intros Hrepo.
  destruct (generate_total repo_name repo mo mf inc exd exf) as (st & Ht & Hg).
  eexists. split; [exact Hg|]. cbn [final output].
  assert (Hend : ended (max_output_size_bytes mo) st).
  { apply (traverse_budget repo mo mf _ st Hrepo) with (2 := Ht).
    right. split; [reflexivity|]. left. reflexivity. }
  intros doc Hdoc.
  apply write_document_Wrote in Hdoc as (Hpc & -> & m & Hm).
  split; [reflexivity|].
  rewrite utf8_len_app in Hm. rewrite utf8_len_app.
  destruct (utf8_len (repo_header repo_name st)) as [h|]; [|discriminate].
  destruct (utf8_len (body st)) as [n|] eqn:Hn; [|discriminate].
  exists h, n. split; [reflexivity|]. split; [reflexivity|].
  split; [reflexivity|].
  destruct Hend as [H|[H [H'|[H'|(t & root & f & k & Htr & Hk & Hle)]]]].
  - congruence.
  - congruence.
  - left. rewrite Hn in H. injection H as ->. lia.
  - right. rewrite Hn in H. injection H as ->. exists t, root, f, k. auto.
Qed.

Lemma body_within_budget_witness :
  exists o,
    generate_repo_knowledge_file (lit "repo") scenario_budget 1 50
                                 None None None = Some o /\
    forall doc,
      output o = Wrote doc ->
      doc = repo_header (lit "repo") (final o) ++ body (final o) /\
      exists h n,
        utf8_len (repo_header (lit "repo") (final o)) = Some h /\
        utf8_len (body (final o)) = Some n /\
        utf8_len doc = Some (h + n) /\
        (n <= max_output_size_bytes 1 \/
         exists t root f k,
           trace (final o) = t ++ [EvBudgetPost root f] /\
           overhead root f = Some k /\
           n <= max_output_size_bytes 1 + k).
Proof.
  apply (body_within_budget (lit "repo") scenario_budget 1 50 None None None).
  simpl. split; [|exact I]. constructor; [|constructor].
  intros content [= <-]. exists 1024, 1024.
  split; [reflexivity|]. split; [vm_compute; reflexivity|lia].
Defined.

(** C2 as stated fails: with a budget of 1 KB and the single file [a.md] of
    1024 bytes, whose rendering overhead is 17 bytes, the document written
    has 1426 bytes: the 1041 bytes of the block and the 385 bytes of the
    repository header. *)
Lemma document_exceeds_budget_by_header :
  exists o doc,
    generate_repo_knowledge_file (lit "repo") scenario_budget 1 50
                                 None None None = Some o /\
    output o = Wrote doc /\
    utf8_len doc = Some 1426 /\
    utf8_len (body (final o)) = Some 1041 /\
    overhead [] (sized_file "a.md" 1024) = Some 17 /\
    1426 > max_output_size_bytes 1 + 17.
Proof.
  do 2 eexists. split; [vm_compute; reflexivity|].
  repeat split; vm_compute; reflexivity.
Qed.

(** ** Which files are opened *)

Lemma process_file_checked mo mf root f st dirs st' dirs' fl st0 :
  exclude_files st = exclude_files st0 ->
  include_extensions st = include_extensions st0 ->
  Forall (checked mf st0) (trace st) ->
  process_file mo mf root f st dirs = (st', dirs', fl) ->
  Forall (checked mf st0) (trace st').
Proof.
  intros He Hi H.
  assert (Hpass :
    py_in (file_name f) (exclude_files st) = false ->
    negb (py_in (lower (snd (splitext (file_name f)))) (include_extensions st))
    = false ->
    forall z, getsize f = Some z -> (z >? mf * 1024) = false ->
    passed_checks mf st0 f).
  { intros H1 H2 z H3 H4. split.
    - apply accepted_true. rewrite <- He, <- Hi.
      apply negb_false_iff in H2. auto.
    - exists z. split; [exact H3|].
      rewrite Z.gtb_ltb in H4. now apply Z.ltb_ge in H4. }
  file_cases; intros [= <- <- <-]; state_simpl;
    repeat (apply Forall_app; split); try exact H;
    repeat (apply Forall_cons || apply Forall_nil); cbn [checked];
    try exact I; try split;
    try (eapply Hpass; solve [eassumption | reflexivity]); congruence.
Qed.

(** Whatever the repository, a file is opened only after it passed the name
    tests and the per-file size limit, and a block is appended only for a
    file that was read. *)
Lemma opened_files_passed_checks repo_name repo mo mf inc exd exf :
  exists o,
    generate_repo_knowledge_file repo_name repo mo mf inc exd exf = Some o /\
    forall e, In e (trace (final o)) ->
              checked mf (initial_state inc exd exf) e.
Proof.
  destruct (generate_total repo_name repo mo mf inc exd exf) as (st & Ht & Hg).
  eexists. split; [exact Hg|]. cbn [final].
  set (st0 := initial_state inc exd exf) in *.
  assert (H : (exclude_files st = exclude_files st0 /\
               include_extensions st = include_extensions st0) /\
              Forall (checked mf st0) (trace st)).
  { apply (traverse_preserves
             (fun s => (exclude_files s = exclude_files st0 /\
                        include_extensions s = include_extensions st0) /\
                       Forall (checked mf st0) (trace s))
             repo mo mf st0 st) with (4 := Ht).
    - intros root s [Hs Hc]. split; [exact Hs|]. state_simpl.
      apply Forall_app. split; [exact Hc|]. repeat constructor.
    - intros root f s dirs s' dirs' fl [[He Hi] Hc] E. split.
      + apply process_file_frame in E as (-> & _ & ->). auto.
      + eapply process_file_checked; eauto.
    - repeat split. constructor. }
  destruct H as [_ H]. rewrite Forall_forall in H. exact H.
Qed.

(** ** The scenarios of the specification *)

(** Three files of 500 bytes and a budget of 1 KB: the first two are
    included, and the second makes the post-check stop the run. *)
Example three_files_two_included :
  exists o,
    generate_repo_knowledge_file (lit "repo") scenario_three 1 50
                                 None None None = Some o /\
    included_count (final o) = 2%nat /\
    skipped_count (final o) = O /\
    current_size_bytes (final o) = 1034.
Proof.
  eexists. split; [vm_compute; reflexivity|]. repeat split.
Qed.

(** An empty repository: no file is written. *)
Example empty_repository_writes_nothing :
  generate_repo_knowledge_file (lit "repo") (Dir (lit "repo") [] []) 500 50
                               None None None
  = Some (Outcome (log (EvWalk []) (initial_state None None None)) NoFile PyNone).
Proof. reflexivity. Qed.

(** The directory [node_modules] and what is below it are not walked. *)
Example excluded_directory_not_walked :
  exists o,
    generate_repo_knowledge_file (lit "repo") scenario_excluded 500 50
                                 None None None = Some o /\
    filter (fun e => match e with EvWalk _ => true | _ => false end)
           (trace (final o))
    = [EvWalk []; EvWalk [lit "src"]] /\
    included_count (final o) = 2%nat.
Proof.
  eexists. split; [vm_compute; reflexivity|]. repeat split.
Qed.

(** * Further properties *)

(** ** [splitext] *)

(** What [rfind_from] returns: the accumulator when the character does not
    occur, and otherwise the index of an occurrence after which there is
    none. *)
Lemma rfind_from_spec c p i acc :
  (rfind_from c p i acc = acc /\ ~ In c p) \/
  (exists k, (k < List.length p)%nat /\
             rfind_from c p i acc = i + Z.of_nat k /\
             nth k p 0%N = c /\ ~ In c (skipn (S k) p)).
Proof.
  revert i acc. induction p as [|x p IH]; intros i acc; simpl.
  - left. auto.
  - destruct (IH (i + 1) (if N.eqb x c then i else acc))
      as [[Hr Hn]|(k & Hk & Hr & Hc & Hs)].
    + destruct (N.eqb x c) eqn:E.
      * right. exists O. apply N.eqb_eq in E. repeat split; try lia; auto.
      * left. split; [exact Hr|]. apply N.eqb_neq in E.
        intros [H|H]; [congruence|auto].
    + right. exists (S k). repeat split; try lia; auto.
Qed.

Lemma rfind_spec c p :
  (rfind c p = -1 /\ ~ In c p) \/
  (exists k, (k < List.length p)%nat /\ rfind c p = Z.of_nat k /\
             nth k p 0%N = c /\ ~ In c (skipn (S k) p)).
Proof.
  unfold rfind. destruct (rfind_from_spec c p 0 (-1)) as [H|(k & H)]; auto.
  right. exists k. simpl in H. exact H.
Qed.

Lemma skipn_nth_cons (p : pystr) k :
  (k < List.length p)%nat -> skipn k p = nth k p 0%N :: skipn (S k) p.
Proof.
  revert k. induction p as [|x p IH]; intros [|k] Hk; simpl in *; try lia.
  - reflexivity.
  - apply IH. lia.
Qed.

Lemma In_skipn_In (c : char) (p : pystr) n : In c (skipn n p) -> In c p.
Proof.
  intros H. rewrite <- (firstn_skipn n p). apply in_or_app. now right.
Qed.

Lemma not_In_skipn_le (c : char) (p : pystr) a b :
  (a <= b)%nat -> ~ In c (skipn a p) -> ~ In c (skipn b p).
Proof.
  intros Hab Ha Hb. apply Ha.
  replace b with ((b - a) + a)%nat in Hb by lia.
  rewrite <- skipn_skipn in Hb. eapply In_skipn_In; exact Hb.
Qed.

Lemma splitext_parts p :
  fst (splitext p) ++ snd (splitext p) = p /\
  (snd (splitext p) = [] \/ ext_form (snd (splitext p))).
Proof.
  unfold splitext. cbv zeta.
  destruct ((rfind DOT p >? rfind SLASH p) && _) eqn:E; cbn [fst snd].
  - split; [apply firstn_skipn|]. right.
    apply andb_true_iff in E as [Hgt _].
    rewrite Z.gtb_ltb in Hgt. apply Z.ltb_lt in Hgt.
    destruct (rfind_spec DOT p) as [[Hd _]|(k & Hk & Hd & Hnth & Hafter)].
    + destruct (rfind_spec SLASH p) as [[Hs _]|(j & _ & Hs & _)]; lia.
    + rewrite Hd, Nat2Z.id. rewrite (skipn_nth_cons p k Hk), Hnth.
      exists (skipn (S k) p). split; [reflexivity|]. split; [exact Hafter|].
      destruct (rfind_spec SLASH p) as [[_ Hs]|(j & _ & Hs & _ & Hsafter)].
      * intros H. apply Hs. eapply In_skipn_In; exact H.
      * apply (not_In_skipn_le SLASH p (S j) (S k)); [lia|exact Hsafter].
  - split; [apply app_nil_r|]. left. reflexivity.
Qed.

(** [splitext] splits without loss: the root and the extension make up the
    path again, and the extension is empty or a dot followed by text with
    no dot and no separator. *)
Theorem splitext_splits p :
  fst (splitext p) ++ snd (splitext p) = p /\
  (snd (splitext p) = [] \/
   exists e, snd (splitext p) = DOT :: e /\ ~ In DOT e /\ ~ In SLASH e).
Proof. exact (splitext_parts p). Qed.

(** ** Entries of [include_extensions] that match nothing *)

(** The extension that is tested against [include_extensions] is empty, or
    a dot followed by text with no dot, no separator and no ASCII capital. *)
Lemma tested_extension_shape name :
  let e := lower (snd (splitext name)) in
  (e = [] \/ ext_form e) /\ no_capital e.
Proof.
  cbv zeta. split; [|apply lower_no_capital].
  destruct (splitext_parts name) as [_ [->|(e' & -> & Hd & Hs)]];
    [left; reflexivity|].
  right. rewrite lower_cons_dot. exists (lower_from [DOT] e').
  split; [reflexivity|].
  split; intros H; apply lower_from_image in H as [[H _]|[H _]];
    solve [auto | vm_compute in H; now destruct H].
Qed.

Lemma py_in_without (e x : pystr) (l : list pystr) :
  e <> x -> py_in e (filter (fun y => negb (str_eqb y x)) l) = py_in e l.
Proof.
  intros Hne. induction l as [|y l IH]; simpl; [reflexivity|].
  destruct (str_eqb y x) eqn:Eyx; simpl.
  - apply str_eqb_eq in Eyx. subst y.
    destruct (str_eqb e x) eqn:Eex; [apply str_eqb_eq in Eex; contradiction|].
    simpl. exact IH.
  - now rewrite IH.
Qed.

(** An entry of [include_extensions] that is not empty and is not a dot
    followed by text without dot, separator and ASCII capital (such as
    [py], [.tar.gz], [.PY] or the [.Dockerfile] of the default list) matches
    no file: the name tests decide the same with the entry removed. *)
Theorem unmatchable_extension_is_dead st x name :
  x <> [] ->
  ~ (ext_form x /\ no_capital x) ->
  accepted
    (with_include_extensions
       (filter (fun y => negb (str_eqb y x)) (include_extensions st)) st)
    name
  = accepted st name.
Proof.
  intros Hx Hform. unfold accepted. cbn [with_include_extensions
    exclude_files include_extensions].
  rewrite py_in_without; [reflexivity|].
  intros E. destruct (tested_extension_shape name) as [[He|He] Hcap];
    rewrite E in *; auto.
Qed.

Lemma unmatchable_extension_is_dead_witness :
  accepted
    (with_include_extensions
       (filter (fun y => negb (str_eqb y (lit ".Dockerfile")))
               (include_extensions (initial_state None None None)))
       (initial_state None None None))
    (lit "app.Dockerfile")
  = accepted (initial_state None None None) (lit "app.Dockerfile").
Proof.
  apply (unmatchable_extension_is_dead (initial_state None None None)
           (lit ".Dockerfile") (lit "app.Dockerfile")).
  - discriminate.
  - intros [_ H]. apply (H 68%N); [vm_compute; auto|lia].
Defined.

(** ** Repositories whose names and contents are well-formed text *)

Lemma encodable_app a b : encodable (a ++ b) <-> encodable a /\ encodable b.
Proof.
  unfold encodable. rewrite utf8_len_app.
  destruct (utf8_len a), (utf8_len b); split; try tauto; try congruence.
  intros _. split; congruence.
Qed.

Lemma lit_encodable s : encodable (lit s).
Proof.
  unfold encodable, lit. induction s as [|a s IH]; simpl; [discriminate|].
  destruct (utf8_len _); [|contradiction].
  assert (H : (N_of_ascii a < 256)%N) by apply N_ascii_bounded.
  unfold utf8_width.
  destruct (N_of_ascii a <? 128)%N; [discriminate|].
  destruct (N_of_ascii a <? 2048)%N eqn:E; [discriminate|].
  apply N.ltb_ge in E. lia.
Qed.

Lemma encodable_skipn n s : encodable s -> encodable (skipn n s).
Proof.
  intros H. rewrite <- (firstn_skipn n s) in H.
  now apply encodable_app in H.
Qed.

Lemma encodable_lstrip_dot s : encodable s -> encodable (lstrip_dot s).
Proof.
  induction s as [|c s IH]; simpl; [auto|].
  destruct (N.eqb c DOT); [|auto].
  intros H. apply IH. now apply (encodable_app [c] s) in H.
Qed.

Lemma encodable_extension name :
  encodable name -> encodable (lower (snd (splitext name))).
Proof.
  intros H. apply encodable_lower.
  destruct (splitext_parts name) as [E _]. rewrite <- E in H.
  now apply encodable_app in H.
Qed.

Lemma encodable_relpath root name :
  Forall encodable root -> encodable name -> encodable (relpath root name).
Proof.
  intros Hr Hn. induction Hr as [|d root Hd _ IH]; simpl; [exact Hn|].
  apply encodable_app. split; [exact Hd|].
  apply (encodable_app [SLASH]). split; [discriminate|exact IH].
Qed.

Lemma encodable_lang file_ext : encodable file_ext -> encodable (lang file_ext).
Proof.
  intros H. unfold lang. cbv zeta.
  destruct (str_eqb _ _); [apply lit_encodable|].
  destruct (str_eqb _ _); [apply lit_encodable|].
  now apply encodable_lstrip_dot.
Qed.

Lemma encodable_render relative_path file_ext content :
  encodable relative_path -> encodable file_ext -> encodable content ->
  encodable (render relative_path file_ext content).
Proof.
  intros Hp He Hc. unfold render, file_header.
  assert (Hnl : encodable NL) by discriminate.
  destruct (py_in file_ext code_extensions);
    repeat (apply encodable_app; split);
    auto using lit_encodable, encodable_lang.
Qed.

Lemma all_dirs_subdir P d c :
  all_dirs P d -> In c (dir_subdirs d) -> P (dir_name c) /\ all_dirs P c.
Proof.
  destruct d as [n fs ds]. cbn [all_dirs dir_subdirs].
  induction ds as [|x ds IH]; simpl; intros H Hin; [contradiction|].
  destruct H as (Hx & Hxd & Hds). destruct Hin as [<-|Hin]; auto.
Qed.

Lemma process_file_exact mo mf root f st dirs st' dirs' fl :
  Forall encodable root -> wf_file f -> exact st ->
  process_file mo mf root f st dirs = (st', dirs', fl) -> exact st'.
Proof.
  intros Hroot [Hname Hread] Hex.
  file_cases; intros [= <- <- <-]; try exact Hex;
    unfold exact, body in *; state_simpl; try assumption.
  exfalso.
  match goal with E : utf8_len _ = None |- _ => revert E end.
  rewrite join_snoc. apply encodable_app. split; [congruence|].
  apply encodable_render;
    auto using encodable_relpath, encodable_extension.
Qed.

Lemma traverse_exact repo mo mf st st' :
  well_formed repo -> exact st ->
  traverse repo mo mf st = Some st' -> exact st'.
Proof.
  intros [Hf Hd] Hex Ht.
  apply (walk_invariant mo mf
           (fun root d => Forall encodable root /\ well_formed d)
           exact exact) with (8 := Ht); auto.
  - intros root d f s dirs s' dirs' fl [Hr [Hwf _]] Hin Hs E.
    assert (exact s').
    { eapply process_file_exact; eauto. eapply all_files_file; eauto. }
    destruct fl; assumption.
  - intros root d s c [Hr [Hwf Hwd]] _ Hin _.
    destruct (all_dirs_subdir _ _ _ Hwd Hin) as [Hn Hc].
    split; [apply Forall_app; auto|].
    split; [eapply all_files_subdir; eauto|exact Hc].
  - repeat constructor; assumption.
Qed.

Lemma traverse_counted repo mo mf st st' :
  counted st -> traverse repo mo mf st = Some st' -> counted st'.
Proof.
  intros Hc Ht.
  apply (traverse_preserves counted repo mo mf st st') with (4 := Ht); auto.
  - intros root s [Hs Hi]. split; [|exact Hi]. state_simpl.
    rewrite files_reached_app. cbn. lia.
  - intros root f s dirs s' dirs' fl. apply process_file_counted.
Qed.

Lemma repo_header_encodable repo_name st :
  encodable repo_name -> encodable (repo_header repo_name st).
Proof.
  intros H. unfold repo_header, format_kb_1f, str_of_Z. cbv zeta.
  assert (Hnl : encodable NL) by discriminate.
  repeat (apply encodable_app; split); auto using lit_encodable.
Qed.

(** When the names of the files and directories of the repository and the
    texts read from its files are well-formed (no lone surrogate), the
    bookkeeping of the run is exact: at the end [current_size_bytes] is the
    encoded length of the joined blocks and [included_count] is the number
    of blocks, so a file counted as skipped has left no block; and if the
    name of the repository is well-formed too, writing the document does
    not fail on encoding. *)
Theorem well_formed_run_is_exact repo_name repo mo mf inc exd exf :
  well_formed repo ->
  exists o,
    generate_repo_knowledge_file repo_name repo mo mf inc exd exf = Some o /\
    utf8_len (body (final o)) = Some (current_size_bytes (final o)) /\
    included_count (final o) = List.length (processed_content (final o)) /\
    (encodable repo_name -> output o <> WriteError).
Proof.
  intros Hwf.
  destruct (generate_total repo_name repo mo mf inc exd exf) as (st & Ht & Hg).
  eexists. split; [exact Hg|]. cbn [final output].
  assert (Hex : exact st).
  { apply (traverse_exact repo mo mf _ st Hwf) with (2 := Ht). reflexivity. }
  assert (Hc : counted st).
  { apply (traverse_counted repo mo mf _ st) with (2 := Ht).
    split; [reflexivity|]. intros _. reflexivity. }
  split; [exact Hex|]. split.
  - apply Hc. unfold exact in Hex. congruence.
  - intros Hn. unfold write_document.
    destruct (processed_content st) eqn:Hpc; [discriminate|].
    rewrite <- Hpc. fold (body st).
    destruct (utf8_len (repo_header repo_name st ++ body st)) eqn:E;
      [discriminate|].
    exfalso. revert E. apply encodable_app.
    split; [now apply repo_header_encodable|]. unfold encodable, exact in *.
    congruence.
Qed.

Lemma well_formed_run_is_exact_witness :
  exists o,
    generate_repo_knowledge_file (lit "repo") scenario_names 500 50
                                 None None None = Some o /\
    utf8_len (body (final o)) = Some (current_size_bytes (final o)) /\
    included_count (final o) = List.length (processed_content (final o)) /\
    (encodable (lit "repo") -> output o <> WriteError).
Proof.
  apply (well_formed_run_is_exact (lit "repo") scenario_names 500 50
                                  None None None).
  split; [|exact I]. simpl. split; [|exact I].
  repeat constructor; try discriminate; intros c [= <-]; discriminate.
Defined.

(** ** Runs that no budget check stops *)

Lemma reached_app t1 t2 : reached (t1 ++ t2) = reached t1 ++ reached t2.
Proof. unfold reached. apply flat_map_app. Qed.

Lemma length_reached t : List.length (reached t) = files_reached t.
Proof.
  unfold reached, files_reached.
  induction t as [|e t IH]; simpl; [reflexivity|].
  rewrite length_app, IH. destruct e; reflexivity.
Qed.

Lemma no_budget_stop_app t1 t2 :
  no_budget_stop (t1 ++ t2) -> no_budget_stop t1 /\ no_budget_stop t2.
Proof.
  intros H. split; intros e He; apply H; apply in_or_app; auto.
Qed.

Lemma process_file_no_stop mo mf root f st dirs st' dirs' fl :
  process_file mo mf root f st dirs = (st', dirs', fl) ->
  no_budget_stop (trace st') ->
  fl = Continue /\ dirs' = dirs /\
  reached (trace st') = reached (trace st) ++ [(root, f)] /\
  (current_size_bytes st < max_output_size_bytes mo ->
   current_size_bytes st' < max_output_size_bytes mo).
Proof.
  file_cases; intros [= <- <- <-] Hno; state_simpl;
    try (exfalso;
         match goal with
         | H : no_budget_stop (_ ++ [?e]) |- _ =>
             specialize (H e (in_elt e _ []));
             discriminate H
         end);
    repeat rewrite reached_app; cbn [reached flat_map app];
    repeat rewrite <- app_assoc; cbn [app];
    rewrite ?app_nil_r; repeat split; auto.
  intros _.
  match goal with E : (_ >=? _) = false |- _ =>
    rewrite Z.geb_leb in E; apply Z.leb_gt in E; exact E end.
Qed.

Lemma for_files_trace mo mf root files st dirs st' dirs' :
  for_files mo mf root files st dirs = (st', dirs') ->
  exists evs, trace st' = trace st ++ evs.
Proof.
  revert st dirs. induction files as [|f files IH]; simpl; intros st dirs.
  - intros [= <- <-]. exists []. now rewrite app_nil_r.
  - destruct (process_file mo mf root f st dirs) as [[s d] fl] eqn:E.
    apply process_file_trace in E as (e1 & E1 & _).
    destruct fl.
    + intros H. apply IH in H as (e2 & E2). exists (e1 ++ e2).
      now rewrite E2, E1, app_assoc.
    + intros [= <- <-]. eauto.
Qed.

Lemma for_files_no_stop mo mf root files st dirs st' dirs' :
  for_files mo mf root files st dirs = (st', dirs') ->
  no_budget_stop (trace st') ->
  dirs' = dirs /\
  reached (trace st') = reached (trace st) ++ map (pair root) files /\
  (current_size_bytes st < max_output_size_bytes mo ->
   current_size_bytes st' < max_output_size_bytes mo).
Proof.
  revert st dirs. induction files as [|f files IH]; simpl; intros st dirs.
  - intros [= <- <-] _. rewrite app_nil_r. auto.
  - destruct (process_file mo mf root f st dirs) as [[s d] fl] eqn:E.
    destruct fl.
    + intros H Hno.
      destruct (for_files_trace _ _ _ _ _ _ _ _ H) as (evs & Hevs).
      assert (Hs : no_budget_stop (trace s)).
      { rewrite Hevs in Hno. now apply no_budget_stop_app in Hno. }
      destruct (process_file_no_stop _ _ _ _ _ _ _ _ _ E Hs)
        as (_ & -> & Hr & Hc).
      destruct (IH _ _ H Hno) as (-> & Hr' & Hc').
      repeat split; auto.
      rewrite Hr', Hr, <- app_assoc. reflexivity.
    + intros [= <- <-] Hno.
      destruct (process_file_no_stop _ _ _ _ _ _ _ _ _ E Hno) as (? & _).
      discriminate.
Qed.

Lemma for_files_frame mo mf root files st dirs st' dirs' :
  for_files mo mf root files st dirs = (st', dirs') ->
  include_extensions st' = include_extensions st /\
  exclude_dirs st' = exclude_dirs st /\
  exclude_files st' = exclude_files st.
Proof.
  revert st dirs. induction files as [|f files IH]; simpl; intros st dirs.
  - intros [= <- <-]. auto.
  - destruct (process_file mo mf root f st dirs) as [[s d] fl] eqn:E.
    apply process_file_frame in E as (Hi & Hd & Hf).
    destruct fl.
    + intros H. apply IH in H as (-> & -> & ->). auto.
    + intros [= <- <-]. auto.
Qed.

Lemma visit_no_stop mo mf root d st st' dirs fl :
  visit mo mf root d st = (st', dirs, fl) ->
  no_budget_stop (trace st') ->
  current_size_bytes st < max_output_size_bytes mo ->
  fl = Continue /\
  dirs = filter (fun c => negb (py_in (dir_name c) (exclude_dirs st)))
                (dir_subdirs d) /\
  reached (trace st') = reached (trace st) ++ map (pair root) (dir_files d) /\
  current_size_bytes st' < max_output_size_bytes mo /\
  exclude_dirs st' = exclude_dirs st.
Proof.
  unfold visit. cbv zeta.
  destruct (for_files mo mf root (dir_files d) _ _) as [st1 dirs1] eqn:E.
  intros Hv Hno Hlt.
  assert (Hno1 : no_budget_stop (trace st1)).
  { destruct (_ >=? _); injection Hv as <- <- <-; exact Hno. }
  destruct (for_files_no_stop _ _ _ _ _ _ _ _ E Hno1) as (-> & Hr & Hc).
  specialize (Hc Hlt).
  assert (Hx : exclude_dirs st1 = exclude_dirs st).
  { apply for_files_frame in E as (_ & Hd & _). exact Hd. }
  replace (current_size_bytes st1 >=? max_output_size_bytes mo) with false in Hv
    by (symmetry; rewrite Z.geb_leb; apply Z.leb_gt; exact Hc).
  injection Hv as <- <- <-.
  repeat split; auto.
  state_simpl. rewrite reached_app in Hr. simpl in Hr.
  rewrite app_nil_r in Hr. exact Hr.
Qed.

Lemma walk_trace mo mf fuel stack st st' :
  walk mo mf fuel stack st = Some st' -> exists evs, trace st' = trace st ++ evs.
Proof.
  intros H.
  apply (walk_invariant mo mf (fun _ _ => True)
           (fun s => exists evs, trace s = trace st ++ evs)
           (fun s => exists evs, trace s = trace st ++ evs)) with (8 := H); auto.
  - intros root d s _ [evs E]. exists (evs ++ [EvWalk root]).
    state_simpl. now rewrite E, app_assoc.
  - intros root d f s dirs s' dirs' fl _ _ [evs E] Ep.
    apply process_file_trace in Ep as (e1 & E1 & _).
    assert (exists evs', trace s' = trace st ++ evs').
    { exists (evs ++ e1). now rewrite E1, E, app_assoc. }
    destruct fl; assumption.
  - apply Forall_forall. intros; exact I.
  - exists []. now rewrite app_nil_r.
Qed.

Lemma listing_children excluded root ds :
  flat_map (fun x => listing excluded (fst x) (snd x))
           (map (fun c => (root ++ [dir_name c], c))
                (filter (fun c => negb (py_in (dir_name c) excluded)) ds))
  = flat_map (fun c => if py_in (dir_name c) excluded then []
                       else listing excluded (root ++ [dir_name c]) c) ds.
Proof.
  induction ds as [|c ds IH]; simpl; [reflexivity|].
  destruct (py_in (dir_name c) excluded); simpl; now rewrite IH.
Qed.

Lemma walk_no_stop mo mf fuel stack st st' :
  walk mo mf fuel stack st = Some st' ->
  no_budget_stop (trace st') ->
  current_size_bytes st < max_output_size_bytes mo ->
  reached (trace st')
  = reached (trace st) ++
    flat_map (fun x => listing (exclude_dirs st) (fst x) (snd x)) stack.
Proof.
  revert stack st.
  induction fuel as [|fuel IH]; intros [|[root d] stack] st; simpl;
    try discriminate;
    try (intros [= <-] _ _; now rewrite app_nil_r).
  destruct (visit mo mf root d st) as [[st1 dirs] fl] eqn:E.
  intros Hw Hno Hlt.
  assert (Hno1 : no_budget_stop (trace st1)).
  { destruct fl; [|injection Hw as <-; exact Hno].
    apply walk_trace in Hw as (evs & Hevs). rewrite Hevs in Hno.
    now apply no_budget_stop_app in Hno. }
  destruct (visit_no_stop _ _ _ _ _ _ _ _ E Hno1 Hlt)
    as (-> & -> & Hr & Hlt1 & Hx).
  rewrite (IH _ _ Hw Hno Hlt1), Hr, Hx.
  rewrite flat_map_app, listing_children.
  destruct d as [n fs ds]. cbn [listing dir_files dir_subdirs].
  now repeat rewrite <- app_assoc.
Qed.

(** When the budget is positive and neither budget check trips during the
    run, the file loop reaches every file of the repository outside the
    excluded directories, once, parent directory first and subdirectories
    in listing order; each of these files is counted as included or as
    skipped. *)
Theorem run_without_stop_reaches_every_file repo_name repo mo mf inc exd exf :
  0 < mo ->
  exists o,
    generate_repo_knowledge_file repo_name repo mo mf inc exd exf = Some o /\
    (no_budget_stop (trace (final o)) ->
     reached (trace (final o))
     = listing (or_default exd default_exclude_dirs) [] repo /\
     (skipped_count (final o) + included_count (final o)
      = List.length (listing (or_default exd default_exclude_dirs) [] repo))%nat).
Proof.
  intros Hmo.
  destruct (generate_total repo_name repo mo mf inc exd exf) as (st & Ht & Hg).
  eexists. split; [exact Hg|]. cbn [final]. intros Hno.
  assert (Hr : reached (trace st)
               = listing (or_default exd default_exclude_dirs) [] repo).
  { unfold traverse in Ht.
    rewrite (walk_no_stop _ _ _ _ _ _ Ht Hno).
    - simpl. now rewrite app_nil_r.
    - unfold max_output_size_bytes. simpl. lia. }
  split; [exact Hr|].
  assert (Hc : counted st).
  { apply (traverse_counted repo mo mf _ st) with (2 := Ht).
    split; [reflexivity|]. intros _. reflexivity. }
  destruct Hc as [Hc _]. now rewrite Hc, <- length_reached, Hr.
Qed.

Lemma run_without_stop_reaches_every_file_witness :
  exists o,
    generate_repo_knowledge_file (lit "repo") scenario_excluded 500 50
                                 None None None = Some o /\
    no_budget_stop (trace (final o)) /\
    reached (trace (final o))
    = listing (or_default None default_exclude_dirs) [] scenario_excluded /\
    (skipped_count (final o) + included_count (final o)
     = List.length (listing (or_default None default_exclude_dirs) []
                            scenario_excluded))%nat.
Proof.
  destruct (run_without_stop_reaches_every_file
              (lit "repo") scenario_excluded 500 50 None None None
              ltac:(lia)) as (o & Ho & H).
  exists o. split; [exact Ho|].
  assert (Hno : no_budget_stop (trace (final o))).
  { vm_compute in Ho. injection Ho as <-. intros e He. simpl in He.
    repeat (destruct He as [<-|He]; [reflexivity|]). contradiction. }
  split; [exact Hno|]. exact (H Hno).
Defined.

(** ** What the pre-read stop gives up *)

Lemma prefix_snoc_l (r s : list pystr) n : prefix (r ++ [n]) s -> prefix r s.
Proof.
  intros [c ->]. exists (n :: c). now rewrite <- app_assoc.
Qed.

Lemma prefix_snoc_r (r s : list pystr) n :
  prefix s (r ++ [n]) -> s = r ++ [n] \/ prefix s r.
Proof.
  intros [c E]. destruct c as [|x c].
  - left. now rewrite app_nil_r in E.
  - right.
    destruct (@exists_last _ (x :: c) ltac:(discriminate)) as (c' & y & Hc).
    rewrite Hc, app_assoc in E. apply app_inj_tail in E as [-> _].
    now exists c'.
Qed.

Lemma prefix_length (a b : list pystr) :
  prefix a b -> (List.length a <= List.length b)%nat.
Proof. intros [c ->]. rewrite length_app. lia. Qed.

Lemma not_prefix_snoc_self (r : list pystr) n : ~ prefix (r ++ [n]) r.
Proof.
  intros H. apply prefix_length in H. rewrite length_app in H. simpl in H. lia.
Qed.

Lemma prefix_same_length (a b : list pystr) :
  prefix a b -> List.length a = List.length b -> a = b.
Proof.
  intros [c ->] H. rewrite length_app in H.
  destruct c; [now rewrite app_nil_r|simpl in H; lia].
Qed.

Lemma not_prefix_siblings (r : list pystr) n1 n2 :
  n1 <> n2 -> ~ prefix (r ++ [n1]) (r ++ [n2]).
Proof.
  intros Hne H. apply prefix_same_length in H.
  - apply app_inj_tail in H as [_ H]. contradiction.
  - now rewrite !length_app.
Qed.

Lemma no_pre_app t1 t2 : no_pre t1 -> no_pre t2 -> no_pre (t1 ++ t2).
Proof.
  intros H1 H2 r f H. apply in_app_or in H as [H|H]; [eapply H1|eapply H2]; eauto.
Qed.

(** The events of one iteration: all in [root]; a pre-read stop, if any, is
    the last of them, and then [dirs] is emptied and the loop is left. *)
Lemma process_file_pre mo mf root f st dirs st' dirs' fl :
  process_file mo mf root f st dirs = (st', dirs', fl) ->
  exists evs,
    trace st' = trace st ++ evs /\
    Forall (fun e => ev_root e = root) evs /\
    (no_pre evs \/
     exists evs0, evs = evs0 ++ [EvBudgetPre root f] /\ no_pre evs0 /\
                  dirs' = [] /\ fl = Break).
Proof.
  file_cases; intros [= <- <- <-]; state_simpl;
    repeat rewrite <- app_assoc; cbn [app];
    eexists; (split; [reflexivity|]);
    (split; [repeat constructor|]);
    try (left; intros r g H; simpl in H; intuition discriminate).
  right. eexists [_; _]. split; [reflexivity|].
  split; [|auto]. intros r g H; simpl in H; intuition discriminate.
Qed.

Lemma for_files_pre mo mf root files st dirs st' dirs' :
  for_files mo mf root files st dirs = (st', dirs') ->
  exists evs,
    trace st' = trace st ++ evs /\
    Forall (fun e => ev_root e = root) evs /\
    (no_pre evs \/
     exists evs0 f, evs = evs0 ++ [EvBudgetPre root f] /\ no_pre evs0 /\
                    dirs' = []).
Proof.
  revert st dirs. induction files as [|f files IH]; simpl; intros st dirs.
  - intros [= <- <-]. exists []. rewrite app_nil_r.
    repeat split; [constructor|]. left. intros r g [].
  - destruct (process_file mo mf root f st dirs) as [[s d] fl] eqn:E.
    apply process_file_pre in E as (e1 & E1 & R1 & P1).
    destruct fl.
    + intros H. apply IH in H as (e2 & E2 & R2 & P2).
      destruct P1 as [P1|(? & _ & _ & _ & ?)]; [|discriminate].
      exists (e1 ++ e2). rewrite E2, E1, app_assoc.
      split; [reflexivity|]. split; [now apply Forall_app|].
      destruct P2 as [P2|(evs0 & g & -> & P2 & ->)].
      * left. now apply no_pre_app.
      * right. exists (e1 ++ evs0), g. rewrite app_assoc.
        repeat split. now apply no_pre_app.
    + intros [= <- <-]. exists e1. repeat split; auto.
      destruct P1 as [P1|(evs0 & -> & P1 & -> & _)]; [now left|].
      right. exists evs0, f. auto.
Qed.

Lemma visit_pre mo mf root d st st' dirs fl :
  visit mo mf root d st = (st', dirs, fl) ->
  exists evs,
    trace st' = trace st ++ evs /\
    Forall (fun e => ev_root e = root) evs /\
    (no_pre evs \/
     exists evs0 f, evs = evs0 ++ [EvBudgetPre root f] /\ no_pre evs0 /\
                    dirs = []).
Proof.
  unfold visit. cbv zeta.
  destruct (for_files mo mf root (dir_files d) _ _) as [st1 dirs1] eqn:E.
  apply for_files_pre in E as (evs & Et & R & P). state_simpl.
  intros H.
  assert (st' = st1 /\ dirs = dirs1) as [-> ->]
    by (destruct (_ >=? _); injection H as <- <- <-; auto).
  exists (EvWalk root :: evs). rewrite Et, <- app_assoc.
  split; [reflexivity|]. split; [constructor; auto|].
  assert (Hw : no_pre [EvWalk root]).
  { intros r g [H'|[]]. discriminate. }
  destruct P as [P|(evs0 & g & -> & P & ->)].
  - left. apply (no_pre_app [EvWalk root] evs); assumption.
  - right. exists (EvWalk root :: evs0), g. repeat split.
    apply (no_pre_app [EvWalk root] evs0); assumption.
Qed.

Lemma pre_is_last evs0 a l root f t2 :
  no_pre evs0 -> evs0 ++ [a] = l ++ EvBudgetPre root f :: t2 -> t2 = [].
Proof.
  intros Hno E. destruct t2 as [|x t2]; [reflexivity|exfalso].
  destruct (@exists_last _ (x :: t2) ltac:(discriminate)) as (t2' & y & Ht).
  rewrite Ht, app_comm_cons, app_assoc in E.
  apply app_inj_tail in E as [-> _].
  apply (Hno root f). apply in_elt.
Qed.

(** Events are added after a trace that satisfies the property; they keep
    it when they are outside the directories already given up and hold a
    pre-read stop only as their last. *)
Lemma nothing_below_after_pre_app t evs :
  nothing_below_after_pre t ->
  (forall p f e, In (EvBudgetPre p f) t -> In e evs -> ~ prefix p (ev_root e)) ->
  (no_pre evs \/
   exists evs0 r f, evs = evs0 ++ [EvBudgetPre r f] /\ no_pre evs0) ->
  nothing_below_after_pre (t ++ evs).
Proof.
  intros Ht Hout Hlast t1 p f t2 E e He.
  apply app_eq_app in E as [l [[E1 E2]|[E1 E2]]].
  - destruct l as [|x l].
    + simpl in E2. rewrite <- E2 in Hlast.
      destruct Hlast as [H|(evs0 & r & g & H & Hno)].
      * exfalso. apply (H p f). now left.
      * symmetry in H. apply (pre_is_last evs0 _ [] p f t2 Hno) in H.
        subst. destruct He.
    + injection E2 as <- ->. apply in_app_or in He as [He|He].
      * apply (Ht t1 p f l E1 e He).
      * apply (Hout p f e); [|exact He]. rewrite E1. apply in_elt.
  - destruct Hlast as [H|(evs0 & r & g & H & Hno)].
    + exfalso. apply (H p f). rewrite E2. apply in_elt.
    + rewrite H in E2. apply (pre_is_last evs0 _ l p f t2 Hno) in E2.
      subst. destruct He.
Qed.

Lemma unrelated_app l1 l2 :
  unrelated l1 -> unrelated l2 ->
  (forall a b, In a l1 -> In b l2 -> ~ prefix a b /\ ~ prefix b a) ->
  unrelated (l1 ++ l2).
Proof.
  intros H1 H2 H12. induction l1 as [|r l1 IH]; simpl; [exact H2|].
  destruct H1 as [Hr H1]. split.
  - intros s Hs. apply in_app_or in Hs as [Hs|Hs]; [auto|].
    apply H12; [now left|exact Hs].
  - apply IH; [exact H1|]. intros a b Ha Hb. apply H12; [now right|exact Hb].
Qed.

Lemma unrelated_children (r : list pystr) (ds : list dir) :
  NoDup (map dir_name ds) ->
  unrelated (map (fun c => r ++ [dir_name c]) ds).
Proof.
  induction ds as [|c ds IH]; simpl; intros H; [exact I|].
  inversion H as [|x l Hnin Hnd]; subst. split; [|auto].
  intros s Hs. apply in_map_iff in Hs as (c' & <- & Hc').
  assert (Hne : dir_name c <> dir_name c').
  { intros E. apply Hnin. rewrite E. now apply in_map. }
  split; apply not_prefix_siblings; congruence.
Qed.

Lemma NoDup_map_filter (keep : dir -> bool) (ds : list dir) :
  NoDup (map dir_name ds) -> NoDup (map dir_name (filter keep ds)).
Proof.
  induction ds as [|c ds IH]; simpl; intros H; [constructor|].
  inversion H as [|x l Hnin Hnd]; subst.
  destruct (keep c); simpl; [|auto]. constructor; [|auto].
  intros Hin. apply Hnin. apply in_map_iff in Hin as (c' & E & Hc').
  apply filter_In in Hc' as [Hc' _]. rewrite <- E. now apply in_map.
Qed.

Lemma distinct_names_subdirs d :
  distinct_names d ->
  NoDup (map dir_name (dir_subdirs d)) /\
  Forall distinct_names (dir_subdirs d).
Proof.
  destruct d as [n fs ds]. cbn [distinct_names dir_subdirs].
  intros [Hnd H]. split; [exact Hnd|]. clear Hnd.
  induction ds as [|c ds IH]; simpl in *; constructor; tauto.
Qed.

Lemma stack_ok_step mo mf root d stack st st' dirs :
  stack_ok (trace st) ((root, d) :: stack) ->
  visit mo mf root d st = (st', dirs, Continue) ->
  stack_ok (trace st')
           (map (fun c => (root ++ [dir_name c], c)) dirs ++ stack).
Proof.
  intros (Hun & Hpast & Hpre & Hdn) Hv.
  pose proof (visit_dirs _ _ _ _ _ _ _ _ Hv) as Hdirs.
  apply visit_pre in Hv as (evs & Et & Hroots & Hlast).
  simpl in Hun. destruct Hun as [Hr Hun].
  inversion Hdn as [|x l Hd Hdn']; subst. simpl in Hd.
  destruct (distinct_names_subdirs d Hd) as [Hnd Hsub].
  assert (Hnd' : NoDup (map dir_name dirs)).
  { destruct Hdirs as [->| ->]; [constructor|now apply NoDup_map_filter]. }
  assert (Hsub' : Forall distinct_names dirs).
  { destruct Hdirs as [->| ->]; [constructor|].
    apply Forall_forall. intros c Hc. apply filter_In in Hc as [Hc _].
    rewrite Forall_forall in Hsub. auto. }
  assert (Hchild : forall s,
            In s (map fst (map (fun c => (root ++ [dir_name c], c)) dirs)) ->
            exists n, s = root ++ [n]).
  { intros s Hs. rewrite map_map in Hs. simpl in Hs.
    apply in_map_iff in Hs as (c & <- & _). eauto. }
  rewrite Forall_forall in Hroots.
  unfold stack_ok. rewrite map_app. repeat split.
  - apply unrelated_app; [|exact Hun|].
    + rewrite map_map. simpl. now apply unrelated_children.
    + intros a b Ha Hb. apply Hchild in Ha as [n ->].
      destruct (Hr b Hb) as [H1 H2]. split.
      * intros H. apply H1. eapply prefix_snoc_l; eauto.
      * intros H. apply prefix_snoc_r in H as [->|H]; [|auto].
        apply H1. exists [n]. reflexivity.
  - intros e s He Hs. rewrite Et in He.
    apply in_app_or in He as [He|He]; apply in_app_or in Hs as [Hs|Hs].
    + apply Hchild in Hs as [n ->]. intros H. apply prefix_snoc_l in H.
      apply (Hpast e root He); [now left|exact H].
    + apply (Hpast e s He). now right.
    + apply Hchild in Hs as [n ->]. rewrite (Hroots e He).
      apply not_prefix_snoc_self.
    + rewrite (Hroots e He). apply (Hr s Hs).
  - intros p f s Hp Hs. rewrite Et in Hp.
    apply in_app_or in Hp as [Hp|Hp]; apply in_app_or in Hs as [Hs|Hs].
    + apply Hchild in Hs as [n ->]. intros H.
      apply prefix_snoc_r in H as [->|H].
      * apply (Hpast _ root Hp); [now left|]. simpl. exists [n]. reflexivity.
      * apply (Hpre p f root Hp); [now left|exact H].
    + apply (Hpre p f s Hp). now right.
    + exfalso. destruct Hlast as [H|(evs0 & g & _ & _ & ->)].
      * exact (H p f Hp).
      * destruct Hs.
    + pose proof (Hroots _ Hp) as E. simpl in E. subst p. apply (Hr s Hs).
  - apply Forall_app. split; [|exact Hdn'].
    apply Forall_forall. intros [s c] Hx.
    apply in_map_iff in Hx as (c' & [= <- <-] & Hc'). simpl.
    rewrite Forall_forall in Hsub'. auto.
Qed.

Lemma walk_pre mo mf fuel stack st st' :
  nothing_below_after_pre (trace st) ->
  stack_ok (trace st) stack ->
  walk mo mf fuel stack st = Some st' ->
  nothing_below_after_pre (trace st').
Proof.
  revert stack st.
  induction fuel as [|fuel IH]; intros [|[root d] stack] st Hgood Hok; simpl;
    try discriminate; try (intros [= <-]; exact Hgood).
  destruct (visit mo mf root d st) as [[st1 dirs] fl] eqn:E.
  assert (Hgood1 : nothing_below_after_pre (trace st1)).
  { destruct (visit_pre _ _ _ _ _ _ _ _ E) as (evs & -> & Hroots & Hlast).
    apply nothing_below_after_pre_app; [exact Hgood| |].
    - intros p f e Hp He. rewrite Forall_forall in Hroots.
      rewrite (Hroots e He). destruct Hok as (_ & _ & Hpre & _).
      apply (Hpre p f root Hp). now left.
    - destruct Hlast as [H|(evs0 & g & H1 & H2 & _)]; [now left|].
      right. eauto. }
  destruct fl.
  - apply IH; [exact Hgood1|]. eapply stack_ok_step; eauto.
  - intros [= <-]. exact Hgood1.
Qed.

(** When no two subdirectories of a directory share a name, a pre-read
    budget stop on a file gives up the directory of that file and all that
    is below it: nothing there is walked, reached, sized, opened or appended
    afterwards.  (Directories beside it or beside the ones above it may
    still be walked.) *)
Theorem pre_check_stop_gives_up_directory repo_name repo mo mf inc exd exf :
  distinct_names repo ->
  exists o,
    generate_repo_knowledge_file repo_name repo mo mf inc exd exf = Some o /\
    nothing_below_after_pre (trace (final o)).
Proof.
  intros Hd.
  destruct (generate_total repo_name repo mo mf inc exd exf) as (st & Ht & Hg).
  eexists. split; [exact Hg|]. cbn [final].
  apply (walk_pre mo mf _ _ _ _) with (3 := Ht).
  - intros t1 p f t2 E. simpl in E. destruct t1; discriminate.
  - unfold stack_ok. simpl. split; [|split; [|split]].
    + split; [|exact I]. intros s [].
    + intros e s [].
    + intros p f s [].
    + repeat constructor. exact Hd.
Qed.

Lemma pre_check_stop_gives_up_directory_witness :
  exists o,
    generate_repo_knowledge_file (lit "repo") scenario_siblings 1 50
                                 None None None = Some o /\
    nothing_below_after_pre (trace (final o)).
Proof.
  apply (pre_check_stop_gives_up_directory (lit "repo") scenario_siblings 1 50
                                           None None None).
  simpl. repeat split; repeat constructor; simpl; intuition discriminate.
Defined.

(** ** The name of a repository *)

Lemma rfind_from_app c a b i acc :
  rfind_from c (a ++ b) i acc
  = rfind_from c b (i + Z.of_nat (List.length a)) (rfind_from c a i acc).
Proof.
  revert i acc. induction a as [|x a IH]; intros i acc; simpl.
  - now rewrite Z.add_0_r.
  - rewrite IH. f_equal. lia.
Qed.

Lemma basename_after_dir_part x item :
  dir_part x -> ~ In SLASH item -> basename (x ++ item) = item.
Proof.
  intros Hx Hitem. unfold basename, rfind.
  destruct Hx as [->|[y ->]].
  - simpl. now rewrite (rfind_from_absent SLASH item 0 (-1) Hitem).
  - rewrite <- app_assoc, rfind_from_app. simpl.
    rewrite ?N.eqb_refl, (rfind_from_absent SLASH item _ _ Hitem).
    replace (y ++ SLASH :: item) with ((y ++ [SLASH]) ++ item)
      by now rewrite <- app_assoc.
    rewrite skipn_app.
    replace (Z.to_nat (Z.of_nat (List.length y) + 1))
      with (List.length (y ++ [SLASH])) by (rewrite length_app; simpl; lia).
    rewrite skipn_all, Nat.sub_diag. reflexivity.
Qed.

Lemma dir_part_app x y : dir_part y -> (y = [] -> dir_part x) -> dir_part (x ++ y).
Proof.
  intros [->|[z ->]] H.
  - rewrite app_nil_r. auto.
  - right. exists (x ++ z). now rewrite app_assoc.
Qed.

Lemma split_on_nonempty sep s : split_on sep s <> [].
Proof.
  destruct s as [|c s]; simpl; [discriminate|].
  destruct (N.eqb c sep); [discriminate|].
  destruct (split_on sep s); discriminate.
Qed.

Lemma split_on_app_sep sep q b :
  split_on sep (q ++ [sep] ++ b) = split_on sep q ++ split_on sep b.
Proof.
  induction q as [|c q IH]; simpl in *.
  - now rewrite N.eqb_refl.
  - rewrite IH. destruct (N.eqb c sep); [reflexivity|].
    pose proof (split_on_nonempty sep q) as Hq.
    destruct (split_on sep q) as [|w ws]; [contradiction|reflexivity].
Qed.

Lemma split_on_no_sep sep s : ~ In sep s -> split_on sep s = [s].
Proof.
  induction s as [|c s IH]; simpl; intros H; [reflexivity|].
  destruct (N.eqb c sep) eqn:E.
  - apply N.eqb_eq in E. exfalso. apply H. now left.
  - rewrite IH; [reflexivity|]. intros Hin. apply H. now right.
Qed.

Lemma path_join_entry src item :
  entry_name item ->
  exists pre, path_join src item = pre ++ item /\ dir_part pre.
Proof.
  intros (Hne & _ & _ & Hns). unfold path_join.
  assert (Hs : startswith_sep item = false).
  { destruct item as [|c item]; [reflexivity|]. simpl.
    apply N.eqb_neq. intros ->. apply Hns. now left. }
  rewrite Hs. destruct src as [|a src].
  - exists []. split; [reflexivity|]. now left.
  - destruct (endswith_sep (a :: src)) eqn:E.
    + exists (a :: src). split; [reflexivity|]. right.
      unfold endswith_sep in E. apply N.eqb_eq in E.
      exists (removelast (a :: src)). rewrite <- E.
      apply app_removelast_last. discriminate.
    + exists ((a :: src) ++ [SLASH]). rewrite <- app_assoc.
      split; [reflexivity|]. right. eauto.
Qed.

Lemma normpath_step_entry k new_comps item :
  entry_name item -> normpath_step k new_comps item = new_comps ++ [item].
Proof.
  intros (Hne & Hd & Hdd & _). unfold normpath_step.
  assert (E1 : str_eqb item [] = false).
  { destruct (str_eqb item []) eqn:E; [|reflexivity].
    apply str_eqb_eq in E. contradiction. }
  assert (E2 : str_eqb item [DOT] = false).
  { destruct (str_eqb item [DOT]) eqn:E; [|reflexivity].
    apply str_eqb_eq in E. contradiction. }
  assert (E3 : str_eqb item [DOT; DOT] = false).
  { destruct (str_eqb item [DOT; DOT]) eqn:E; [|reflexivity].
    apply str_eqb_eq in E. contradiction. }
  rewrite E1, E2, E3. reflexivity.
Qed.

Lemma sep_join_cons c comps :
  comps <> [] -> sep_join (c :: comps) = c ++ [SLASH] ++ sep_join comps.
Proof. destruct comps; [contradiction|reflexivity]. Qed.

Lemma sep_join_snoc comps item :
  exists x, sep_join (comps ++ [item]) = x ++ item /\ dir_part x.
Proof.
  induction comps as [|c comps (x & E & Hx)].
  - exists []. split; [reflexivity|]. now left.
  - exists (c ++ [SLASH] ++ x).
    rewrite <- app_comm_cons, sep_join_cons by (destruct comps; discriminate).
    rewrite E. split; [now rewrite <- !app_assoc|].
    rewrite app_assoc. apply dir_part_app; [exact Hx|].
    intros _. right. eauto.
Qed.

Lemma repeat_sep_dir_part k : dir_part (repeat SLASH k).
Proof.
  destruct k; [now left|]. right. exists (repeat SLASH k).
  replace (S k) with (k + 1)%nat by lia. now rewrite repeat_app.
Qed.

Lemma repo_name_of_join source_dir item :
  entry_name item ->
  repo_name_of (path_join source_dir item) = item.
Proof.
  intros Hitem.
  destruct (path_join_entry source_dir item Hitem) as (pre & -> & Hpre).
  pose proof Hitem as (Hne & _ & _ & Hns).
  unfold repo_name_of, normpath.
  destruct (pre ++ item) as [|a p] eqn:Ep.
  { destruct pre; [simpl in Ep; contradiction|discriminate]. }
  rewrite <- Ep. cbv zeta. generalize (initial_slashes (pre ++ item)).
  intros k.
  assert (Hsplit : exists cs, split_on SLASH (pre ++ item) = cs ++ [item]).
  { destruct Hpre as [->|[q ->]].
    - exists []. simpl. now apply split_on_no_sep.
    - exists (split_on SLASH q). rewrite <- app_assoc.
      rewrite (split_on_app_sep SLASH q item).
      now rewrite (split_on_no_sep SLASH item Hns). }
  destruct Hsplit as [cs ->].
  rewrite fold_left_app. simpl.
  rewrite (normpath_step_entry k _ item Hitem).
  destruct (sep_join_snoc (fold_left (normpath_step k) cs []) item)
    as (x & -> & Hx).
  rewrite app_assoc.
  assert (Hd : dir_part (repeat SLASH k ++ x)).
  { apply dir_part_app; [exact Hx|]. intros _. apply repeat_sep_dir_part. }
  destruct ((repeat SLASH k ++ x) ++ item) eqn:E.
  { destruct (repeat SLASH k ++ x); [simpl in E; contradiction|discriminate]. }
  rewrite <- E. now apply basename_after_dir_part.
Qed.

(** The root of a walk started at a directory entry is named after the
    entry: for an [item] as a directory listing gives it (not empty, not
    [.] or [..], no separator) and any directory path [source_dir],
    [repo_name] computed from [os.path.join(source_dir, item)] is [item], so
    the knowledge file of that repository is [item] followed by
    [_knowledge.md]. *)
Theorem repo_name_of_entry source_dir output_dir item :
  entry_name item ->
  repo_name_of (path_join source_dir item) = item /\
  output_filename_of output_dir (path_join source_dir item)
  = path_join output_dir (item ++ lit "_knowledge.md").
Proof.
  intros H. unfold output_filename_of.
  rewrite (repo_name_of_join source_dir item H). split; reflexivity.
Qed.

Lemma repo_name_of_entry_witness :
  repo_name_of (path_join (lit "/srv/repos/./") (lit "aiogram-dev-3.x"))
  = lit "aiogram-dev-3.x" /\
  output_filename_of (lit "out")
                     (path_join (lit "/srv/repos/./") (lit "aiogram-dev-3.x"))
  = path_join (lit "out") (lit "aiogram-dev-3.x" ++ lit "_knowledge.md").
Proof.
  apply (repo_name_of_entry (lit "/srv/repos/./") (lit "out")
                            (lit "aiogram-dev-3.x")).
  repeat split; try discriminate. vm_compute. intuition discriminate.
Defined.

(** ** The drivers *)

Lemma fs_read_apply_output path p w s :
  fs_read path (apply_output p w s)
  = if str_eqb p path then after_write w (fs_read path s) else fs_read path s.
Proof.
  destruct w; simpl; destruct (str_eqb p path) eqn:E; try reflexivity.
Qed.

Lemma str_eqb_refl a : str_eqb a a = true.
Proof. now apply str_eqb_eq. Qed.

Lemma str_eqb_neq a b : a <> b -> str_eqb a b = false.
Proof.
  intros H. destruct (str_eqb a b) eqn:E; [|reflexivity].
  apply str_eqb_eq in E. contradiction.
Qed.

Lemma job_result_total j : exists w, job_result j = Some w.
Proof.
  destruct j as [[[repo_path repo] mo] mf]. unfold job_result.
  destruct (generate_total (repo_name_of repo_path) repo mo mf None None None)
    as (st & _ & ->).
  simpl. eauto.
Qed.

Lemma call_generate_result output_dir repo_path repo mo mf s w :
  job_result (repo_path, repo, mo, mf) = Some w ->
  call_generate repo_path output_dir repo mo mf s
  = Some (apply_output (output_filename_of output_dir repo_path) w s).
Proof.
  unfold job_result, call_generate.
  destruct (generate_repo_knowledge_file _ _ _ _ _ _ _); simpl;
    [|discriminate].
  now intros [= <-].
Qed.

(** Calls whose output files are distinct do not disturb one another: each
    file is as its own call left it, and every other file is as it was. *)
Lemma call_all_spec output_dir jobs s :
  NoDup (map (job_file output_dir) jobs) ->
  exists final,
    call_all output_dir jobs s = Some final /\
    (forall j w, In j jobs -> job_result j = Some w ->
                 fs_read (job_file output_dir j) final
                 = after_write w (fs_read (job_file output_dir j) s)) /\
    (forall path, ~ In path (map (job_file output_dir) jobs) ->
                  fs_read path final = fs_read path s).
Proof.
  revert s. induction jobs as [|j jobs IH]; intros s Hnd.
  - exists s. simpl. split; [reflexivity|]. split; [intros j w []|reflexivity].
  - inversion Hnd as [|x l Hnin Hnd']; subst.
    destruct (job_result_total j) as [w Hw].
    destruct j as [[[repo_path repo] mo] mf].
    destruct (IH (apply_output (output_filename_of output_dir repo_path) w s)
                 Hnd') as (final & Hc & Hown & Hother).
    exists final. simpl.
    rewrite (call_generate_result output_dir _ _ _ _ s w Hw).
    split; [exact Hc|]. split.
    + intros j' w' [<-|Hin] Hw'.
      * rewrite Hother by exact Hnin. simpl.
        rewrite fs_read_apply_output, str_eqb_refl. congruence.
      * rewrite (Hown j' w' Hin Hw'), fs_read_apply_output.
        rewrite str_eqb_neq; [reflexivity|].
        intros E. apply Hnin.
        change (In (output_filename_of output_dir repo_path)
                   (map (job_file output_dir) jobs)).
        rewrite E. now apply in_map.
    + intros path Hp. rewrite Hother.
      * rewrite fs_read_apply_output, str_eqb_neq; [reflexivity|].
        intros E. apply Hp. now left.
      * intros Hin. apply Hp. now right.
Qed.

Lemma path_join_no_sep a x :
  startswith_sep x = false ->
  path_join a x
  = (if match a with [] => true | _ => endswith_sep a end
     then a else a ++ [SLASH]) ++ x.
Proof.
  intros H. unfold path_join. rewrite H.
  destruct (match a with [] => true | _ => endswith_sep a end);
    [reflexivity|now rewrite <- app_assoc].
Qed.

Lemma entry_name_startswith item suffix :
  entry_name item -> startswith_sep (item ++ suffix) = false.
Proof.
  intros (Hne & _ & _ & Hns). destruct item as [|c item]; [contradiction|].
  simpl. apply N.eqb_neq. intros ->. apply Hns. now left.
Qed.

(** Repositories with different names have different knowledge files. *)
Lemma knowledge_file_inj output_dir a b :
  entry_name a -> entry_name b ->
  knowledge_file output_dir a = knowledge_file output_dir b -> a = b.
Proof.
  intros Ha Hb. unfold knowledge_file.
  rewrite (path_join_no_sep _ _ (entry_name_startswith a _ Ha)).
  rewrite (path_join_no_sep _ _ (entry_name_startswith b _ Hb)).
  intros E. apply app_inv_head in E. now apply app_inv_tail in E.
Qed.

Lemma output_filename_of_entry output_dir source_dir item :
  entry_name item ->
  output_filename_of output_dir (path_join source_dir item)
  = knowledge_file output_dir item.
Proof.
  intros H. unfold output_filename_of, knowledge_file.
  now rewrite repo_name_of_join.
Qed.

(** Jobs made from a list, at most one for each element, with output files
    that differ from one element to the next. *)
Lemma jobs_files {A} (g : A -> list job) (h : A -> pystr) output_dir l :
  (forall x, In x l ->
             g x = [] \/ exists j, g x = [j] /\ job_file output_dir j = h x) ->
  NoDup (map h l) ->
  NoDup (map (job_file output_dir) (flat_map g l)) /\
  (forall p, In p (map (job_file output_dir) (flat_map g l)) ->
             exists x, In x l /\ g x <> [] /\ p = h x).
Proof.
  induction l as [|x l IH]; simpl; intros Hg Hnd.
  - split; [constructor|intros p []].
  - inversion Hnd as [|y l' Hnin Hnd']; subst.
    destruct IH as [IH1 IH2]; [intros y Hy; apply Hg; now right|exact Hnd'|].
    destruct (Hg x (or_introl eq_refl)) as [E|(j & E & Hj)]; rewrite E; simpl.
    + split; [exact IH1|]. intros p Hp.
      destruct (IH2 p Hp) as (y & Hy & Hne & ->). exists y. auto.
    + split.
      * constructor; [|exact IH1]. intros Hin.
        destruct (IH2 _ Hin) as (y & Hy & _ & Ey).
        apply Hnin. rewrite <- Hj, Ey. now apply in_map.
      * intros p [<-|Hp].
        -- exists x. rewrite E. repeat split; auto. discriminate.
        -- destruct (IH2 p Hp) as (y & Hy & Hne & ->). exists y. auto.
Qed.

Lemma length_main_jobs source_dir mo mf tree_at items :
  List.length (main_jobs source_dir mo mf tree_at items)
  = List.length (filter (fun item => isdir tree_at (path_join source_dir item))
                        items).
Proof.
  unfold main_jobs, isdir. induction items as [|item items IH]; simpl;
    [reflexivity|].
  destruct (tree_at (path_join source_dir item)); simpl; now rewrite IH.
Qed.

(** While the trees at the entries stay what [frozen] has, and the
    knowledge files of the entries can be opened, the loop of [main] makes
    the calls of [main_jobs] one after the other. *)
Lemma main_loop_call_all
      source_dir output_dir mo mf tree_at writable frozen items s n :
  Forall entry_name items ->
  (forall s' item,
      In item items ->
      tree_at s' (path_join source_dir item)
      = frozen (path_join source_dir item)) ->
  (forall s' item,
      In item items -> writable s' (knowledge_file output_dir item) = true) ->
  main_loop source_dir output_dir mo mf tree_at writable items s n
  = option_map
      (fun s' =>
         (s', (n + List.length (main_jobs source_dir mo mf frozen items))%nat))
      (call_all output_dir (main_jobs source_dir mo mf frozen items) s).
Proof.
  intros Hnames. revert s n.
  induction Hnames as [|item items Hitem _ IH]; intros s n Htree Hopen; simpl.
  - now rewrite Nat.add_0_r.
  - rewrite (Htree s item (or_introl eq_refl)).
    assert (IH' := fun s n =>
      IH s n (fun s' x Hx => Htree s' x (or_intror Hx))
             (fun s' x Hx => Hopen s' x (or_intror Hx))).
    destruct (frozen (path_join source_dir item)) as [repo|]; simpl.
    + unfold call_generate.
      destruct (generate_repo_knowledge_file _ _ _ _ _ _ _) as [o|];
        [|reflexivity].
      rewrite (output_filename_of_entry output_dir source_dir item Hitem).
      rewrite (Hopen s item (or_introl eq_refl)).
      rewrite IH'. destruct (call_all _ _ _); simpl; [|reflexivity].
      do 2 f_equal. lia.
    + apply IH'.
Qed.

(** [main] makes one call for each entry of [source_dir] that is a
    directory.  Let the entries be names as a listing gives them, all
    different; let the output directory lie outside the repositories, so
    that the tree at an entry is the same whatever documents have been
    written; and let the knowledge file of every entry be writable.  Then
    [main] returns, the knowledge file of each entry that is a directory,
    [item] followed by [_knowledge.md] in [output_dir], ends as the call
    for that directory left it (its document; empty if encoding the
    document raised; untouched if no block was collected), whatever the
    other calls did, and every other file of [output_dir] is as it was.
    [processed_repos] is the number of directories among the entries. *)
Theorem main_writes_each_repository_its_file
        source_dir output_dir mo mf tree_at writable items s :
  Forall entry_name items -> NoDup items ->
  (forall s' item,
      In item items ->
      tree_at s' (path_join source_dir item)
      = tree_at s (path_join source_dir item)) ->
  (forall s' item,
      In item items -> writable s' (knowledge_file output_dir item) = true) ->
  exists final n,
    main source_dir output_dir mo mf tree_at writable true true
         (Some items) s = Some (MainReturned final n) /\
    n = List.length
          (filter (fun item => isdir (tree_at s) (path_join source_dir item))
                  items) /\
    (forall item repo,
        In item items -> tree_at s (path_join source_dir item) = Some repo ->
        exists o,
          generate_repo_knowledge_file item repo mo mf None None None = Some o /\
          fs_read (knowledge_file output_dir item) final
          = after_write (output o) (fs_read (knowledge_file output_dir item) s)) /\
    (forall path,
        (forall item, In item items ->
                      isdir (tree_at s) (path_join source_dir item) = true ->
                      path <> knowledge_file output_dir item) ->
        fs_read path final = fs_read path s).
Proof.
  intros Hnames' Hnd Htree Hopen.
  pose proof Hnames' as Hnames. rewrite Forall_forall in Hnames.
  set (g := fun item =>
              match tree_at s (path_join source_dir item) with
              | Some repo => [(path_join source_dir item, repo, mo, mf)]
              | None => []
              end : list job).
  destruct (jobs_files g (knowledge_file output_dir) output_dir items)
    as [Hfiles Hin].
  { intros item Hitem. unfold g.
    destruct (tree_at s (path_join source_dir item)); [right|now left].
    eexists. split; [reflexivity|]. simpl.
    apply output_filename_of_entry. auto. }
  { apply NoDup_map_NoDup_ForallPairs; [|exact Hnd].
    intros a b Ha Hb. apply knowledge_file_inj; auto. }
  destruct (call_all_spec output_dir
              (main_jobs source_dir mo mf (tree_at s) items) s Hfiles)
    as (final & Hc & Hown & Hother).
  exists final, (List.length (main_jobs source_dir mo mf (tree_at s) items)).
  unfold main. cbn [negb].
  rewrite (main_loop_call_all source_dir output_dir mo mf tree_at writable
             (tree_at s) items s O Hnames' Htree Hopen), Hc.
  simpl.
  split; [reflexivity|]. split; [apply length_main_jobs|]. split.
  - intros item repo Hitem Hrepo.
    destruct (job_result_total (path_join source_dir item, repo, mo, mf))
      as [w Hw].
    assert (Hj : In (path_join source_dir item, repo, mo, mf)
                    (main_jobs source_dir mo mf (tree_at s) items)).
    { apply in_flat_map. exists item. split; [exact Hitem|].
      rewrite Hrepo. now left. }
    specialize (Hown _ w Hj Hw). simpl in Hown.
    rewrite (output_filename_of_entry _ _ _ (Hnames _ Hitem)) in Hown.
    unfold job_result in Hw.
    rewrite (repo_name_of_join _ _ (Hnames _ Hitem)) in Hw.
    destruct (generate_repo_knowledge_file item repo mo mf None None None)
      as [o|]; [|discriminate].
    injection Hw as <-. eauto.
  - intros path Hp. apply Hother. intros Hpath.
    destruct (Hin _ Hpath) as (item & Hitem & Hne & ->).
    apply (Hp item Hitem); [|reflexivity].
    unfold g in Hne. unfold isdir.
    destruct (tree_at s (path_join source_dir item)); [reflexivity|congruence].
Qed.

Lemma main_writes_each_repository_its_file_witness :
  exists final n,
    main (lit "/srv/repos") (lit "out") 500 50
         (fun _ => sample_tree_at) (fun _ _ => true) true true
         (Some sample_items) [] = Some (MainReturned final n) /\
    n = List.length
          (filter (fun item =>
                     isdir sample_tree_at (path_join (lit "/srv/repos") item))
                  sample_items) /\
    (forall item repo,
        In item sample_items ->
        sample_tree_at (path_join (lit "/srv/repos") item) = Some repo ->
        exists o,
          generate_repo_knowledge_file item repo 500 50 None None None = Some o /\
          fs_read (knowledge_file (lit "out") item) final
          = after_write (output o) (fs_read (knowledge_file (lit "out") item) [])) /\
    (forall path,
        (forall item, In item sample_items ->
                      isdir sample_tree_at (path_join (lit "/srv/repos") item)
                      = true ->
                      path <> knowledge_file (lit "out") item) ->
        fs_read path final = fs_read path []).
Proof.
  apply (main_writes_each_repository_its_file
           (lit "/srv/repos") (lit "out") 500 50
           (fun _ => sample_tree_at) (fun _ _ => true) sample_items []).
  - repeat constructor; try discriminate; vm_compute; intuition discriminate.
  - repeat constructor; vm_compute; intuition discriminate.
  - reflexivity.
  - reflexivity.
Defined.

(** With the output directory inside the source directory the second
    premise fails, and so does the conclusion: once the document of
    [projA] is written, the walk of [out] finds it, and [main] writes a
    second document, [out_knowledge.md], that holds the first. *)
Example output_directory_inside_source :
  exists doc_a doc_out,
    main (lit "/srv/repos") (lit "/srv/repos/out") 500 50
         nested_tree_at (fun _ _ => true) true true
         (Some [lit "projA"; lit "out"]) []
    = Some (MainReturned
              [(lit "/srv/repos/out/out_knowledge.md", doc_out);
               (lit "/srv/repos/out/projA_knowledge.md", doc_a)] 2) /\
    nested_tree_at [] (lit "/srv/repos/out") = Some (Dir (lit "out") [] []) /\
    exists header,
      doc_out = header ++ lit "## File: projA_knowledge.md" ++ NL ++ NL
                       ++ doc_a ++ NL ++ NL.
Proof.
  remember (main _ _ _ _ _ _ _ _ _ _) as r eqn:E. vm_compute in E. subst r.
  do 2 eexists. split; [reflexivity|]. split; [reflexivity|].
  match goal with
  | |- exists header, ?d = header ++ ?t =>
      exists (firstn (List.length d - List.length t) d)
  end.
  vm_compute. reflexivity.
Qed.

(** [main] gives up before the loop when the output directory cannot be
    made, and does nothing when the source is not a directory. *)
Lemma main_without_loop source_dir output_dir mo mf tree_at writable listdir s :
  main source_dir output_dir mo mf tree_at writable true false listdir s
  = Some MainRaised /\
  forall makedirs,
    main source_dir output_dir mo mf tree_at writable false makedirs listdir s
    = Some (MainReturned s O).
Proof. split; reflexivity. Qed.

Lemma call_all_app output_dir jobs1 jobs2 s :
  call_all output_dir (jobs1 ++ jobs2) s
  = match call_all output_dir jobs1 s with
    | Some s' => call_all output_dir jobs2 s'
    | None => None
    end.
Proof.
  revert s. induction jobs1 as [|[[[rp repo] mo] mf] jobs1 IH]; intros s; simpl;
    [reflexivity|].
  destruct (call_generate _ _ _ _ _ _); [apply IH|reflexivity].
Qed.

Lemma for_repos_call_all tree_at repos s n :
  for_repos tree_at repos s n
  = option_map
      (fun s' => (s', (n + List.length (optimized_jobs tree_at repos))%nat))
      (call_all optimized_output_dir (optimized_jobs tree_at repos) s).
Proof.
  revert s n. induction repos as [|c repos IH]; intros s n; simpl.
  - now rewrite Nat.add_0_r.
  - destruct (tree_at (path_join source_base (cfg_path c))) as [repo|]; simpl.
    + destruct (call_generate _ _ _ _ _ _) as [s'|]; [|reflexivity].
      rewrite IH. destruct (call_all _ _ _); simpl; [|reflexivity].
      do 2 f_equal. lia.
    + apply IH.
Qed.

Lemma for_categories_call_all tree_at categories s n :
  for_categories tree_at categories s n
  = option_map
      (fun s' =>
         (s', (n + List.length
                     (optimized_jobs tree_at (concat (map snd categories))))%nat))
      (call_all optimized_output_dir
                (optimized_jobs tree_at (concat (map snd categories))) s).
Proof.
  revert s n. induction categories as [|[category repos] categories IH];
    intros s n; simpl.
  - now rewrite Nat.add_0_r.
  - rewrite for_repos_call_all.
    replace (optimized_jobs tree_at (repos ++ concat (map snd categories)))
      with (optimized_jobs tree_at repos
            ++ optimized_jobs tree_at (concat (map snd categories)))
      by (unfold optimized_jobs; now rewrite flat_map_app).
    rewrite call_all_app, length_app.
    destruct (call_all optimized_output_dir (optimized_jobs tree_at repos) s)
      as [s'|]; simpl; [|reflexivity].
    rewrite IH.
    destruct (call_all optimized_output_dir
                (optimized_jobs tree_at (concat (map snd categories))) s');
      simpl; [|reflexivity].
    do 2 f_equal. lia.
Qed.

Lemma length_optimized_jobs tree_at repos :
  List.length (optimized_jobs tree_at repos)
  = List.length
      (filter (fun c => isdir tree_at (path_join source_base (cfg_path c)))
              repos).
Proof.
  unfold optimized_jobs, isdir. induction repos as [|c repos IH]; simpl;
    [reflexivity|].
  destruct (tree_at (path_join source_base (cfg_path c))); simpl; now rewrite IH.
Qed.

Lemma configured_names : Forall (fun c => entry_name (cfg_path c)) configured_repos.
Proof.
  repeat constructor; try discriminate; vm_compute; intuition discriminate.
Qed.

Lemma configured_paths_differ : NoDup (map cfg_path configured_repos).
Proof.
  repeat constructor; vm_compute; intuition discriminate.
Qed.

(** [run_optimized_knowledge_builder.main] makes one call for each
    configured repository whose path below [source_base] is a directory,
    with the budget of its configuration and a per-file limit of 100 KB.
    The knowledge file of each such repository is named after the [path]
    of its configuration (not its [name]) and ends as its own call left it;
    no other file of the output directory is touched; [total_processed] is
    the number of configured repositories that are present. *)
Theorem optimized_main_writes_each_repository_its_file tree_at s :
  exists final n,
    optimized_main tree_at s = Some (final, n) /\
    n = List.length
          (filter (fun c => isdir tree_at (path_join source_base (cfg_path c)))
                  configured_repos) /\
    (forall c repo,
        In c configured_repos ->
        tree_at (path_join source_base (cfg_path c)) = Some repo ->
        exists o,
          generate_repo_knowledge_file (cfg_path c) repo (cfg_max_size_kb c) 100
                                       None None None = Some o /\
          fs_read (knowledge_file optimized_output_dir (cfg_path c)) final
          = after_write (output o)
              (fs_read (knowledge_file optimized_output_dir (cfg_path c)) s)) /\
    (forall path,
        (forall c, In c configured_repos ->
                   path <> knowledge_file optimized_output_dir (cfg_path c)) ->
        fs_read path final = fs_read path s).
Proof.
  pose proof configured_names as Hnames. rewrite Forall_forall in Hnames.
  set (g := fun c =>
              match tree_at (path_join source_base (cfg_path c)) with
              | Some repo =>
                  [(path_join source_base (cfg_path c), repo,
                    cfg_max_size_kb c, 100)]
              | None => []
              end : list job).
  destruct (jobs_files g (fun c => knowledge_file optimized_output_dir (cfg_path c))
                       optimized_output_dir configured_repos) as [Hfiles Hin].
  { intros c Hc. unfold g.
    destruct (tree_at (path_join source_base (cfg_path c))); [right|now left].
    eexists. split; [reflexivity|]. simpl.
    apply output_filename_of_entry. auto. }
  { rewrite <- (map_map cfg_path (knowledge_file optimized_output_dir)).
    apply NoDup_map_NoDup_ForallPairs; [|exact configured_paths_differ].
    intros a b Ha Hb.
    apply in_map_iff in Ha as (ca & <- & Ha), Hb as (cb & <- & Hb).
    apply knowledge_file_inj; auto. }
  destruct (call_all_spec optimized_output_dir
                          (optimized_jobs tree_at configured_repos) s Hfiles)
    as (final & Hc & Hown & Hother).
  exists final, (List.length (optimized_jobs tree_at configured_repos)).
  unfold optimized_main. rewrite for_categories_call_all.
  fold configured_repos. rewrite Hc. cbn [option_map Nat.add].
  split; [reflexivity|]. split; [|split].
  - apply length_optimized_jobs.
  - intros c repo Hcin Htree.
    destruct (job_result_total
                (path_join source_base (cfg_path c), repo, cfg_max_size_kb c, 100))
      as [w Hw].
    assert (Hj : In (path_join source_base (cfg_path c), repo,
                     cfg_max_size_kb c, 100)
                    (optimized_jobs tree_at configured_repos)).
    { apply in_flat_map. exists c. split; [exact Hcin|].
      rewrite Htree. now left. }
    specialize (Hown _ w Hj Hw). simpl in Hown.
    rewrite (output_filename_of_entry _ _ _ (Hnames _ Hcin)) in Hown.
    unfold job_result in Hw.
    rewrite (repo_name_of_join _ _ (Hnames _ Hcin)) in Hw.
    destruct (generate_repo_knowledge_file (cfg_path c) repo
                (cfg_max_size_kb c) 100 None None None) as [o|]; [|discriminate].
    injection Hw as <-. eauto.
  - intros path Hp. apply Hother. intros Hpath.
    destruct (Hin _ Hpath) as (c & Hcin & _ & ->).
    now apply (Hp c Hcin).
Qed.

(** ** Headers *)

Lemma split_at_sep (c : char) (a b x y : pystr) :
  ~ In c a -> ~ In c b -> a ++ c :: x = b ++ c :: y -> a = b /\ x = y.
Proof.
  revert b. induction a as [|u a IH]; intros [|v b] Ha Hb E; simpl in *.
  - injection E as ->. auto.
  - injection E as <- _. exfalso. apply Hb. now left.
  - injection E as -> _. exfalso. apply Ha. now left.
  - injection E as -> E. destruct (IH b) as [-> ->]; auto.
Qed.

Lemma relpath_has_sep d root name : In SLASH (relpath (d :: root) name).
Proof. simpl. apply in_or_app. right. now left. Qed.

Lemma relpath_inj root1 root2 name1 name2 :
  Forall (fun d => ~ In SLASH d) root1 -> Forall (fun d => ~ In SLASH d) root2 ->
  ~ In SLASH name1 -> ~ In SLASH name2 ->
  relpath root1 name1 = relpath root2 name2 ->
  root1 = root2 /\ name1 = name2.
Proof.
  intros H1. revert root2.
  induction H1 as [|d1 root1 Hd1 _ IH]; intros root2 H2 Hn1 Hn2 E;
    destruct H2 as [|d2 root2 Hd2 H2].
  - auto.
  - exfalso. apply Hn1. simpl relpath at 1 in E. rewrite E.
    apply relpath_has_sep.
  - exfalso. apply Hn2. simpl relpath at 2 in E. rewrite <- E.
    apply relpath_has_sep.
  - simpl in E. apply split_at_sep in E as [-> E]; auto.
    destruct (IH root2 H2 Hn1 Hn2 E) as [-> ->]. auto.
Qed.

(** The header of a block names its file: when directory and file names
    hold no separator (as in a directory listing), two files have the same
    header only if they are in the same directory and have the same name. *)
Theorem file_header_names_the_file root1 root2 name1 name2 :
  Forall (fun d => ~ In SLASH d) root1 -> Forall (fun d => ~ In SLASH d) root2 ->
  ~ In SLASH name1 -> ~ In SLASH name2 ->
  file_header (relpath root1 name1) = file_header (relpath root2 name2) ->
  root1 = root2 /\ name1 = name2.
Proof.
  intros H1 H2 Hn1 Hn2 E. unfold file_header in E.
  apply app_inv_head in E. rewrite !app_assoc in E.
  apply app_inv_tail in E. apply app_inv_tail in E.
  now apply relpath_inj.
Qed.

Lemma file_header_names_the_file_witness :
  [lit "src"] = [lit "src"] /\ lit "app.py" = lit "app.py".
Proof.
  apply (file_header_names_the_file [lit "src"] [lit "src"]
                                    (lit "app.py") (lit "app.py")).
  - repeat constructor. vm_compute. intuition discriminate.
  - repeat constructor. vm_compute. intuition discriminate.
  - vm_compute. intuition discriminate.
  - vm_compute. intuition discriminate.
  - reflexivity.
Defined.

(** ** A budget of zero or less *)

Lemma utf8_len_nonneg (s : pystr) (n : Z) : utf8_len s = Some n -> 0 <= n.
Proof.
  revert n; induction s as [|c s IH]; simpl; intros n.
  - intros [= <-]. lia.
  - destruct (utf8_width c) as [w|] eqn:Hw; [|discriminate].
    destruct (utf8_len s) as [m|]; [|discriminate].
    intros [= <-]. specialize (IH m eq_refl).
    unfold utf8_width in Hw.
    repeat match type of Hw with
           | (if ?b then _ else _) = _ => destruct b
           end; try discriminate; injection Hw as <-; lia.
Qed.

Lemma walked_app t1 t2 : walked (t1 ++ t2) = walked t1 ++ walked t2.
Proof. unfold walked. apply flat_map_app. Qed.

Lemma process_file_nonpositive mo mf root f st dirs st' dirs' fl :
  mo <= 0 -> 0 <= current_size_bytes st -> included_count st = O ->
  process_file mo mf root f st dirs = (st', dirs', fl) ->
  0 <= current_size_bytes st' /\
  walked (trace st') = walked (trace st) /\
  (included_count st' = O \/ (fl = Break /\ included_count st' = 1%nat)).
Proof.
  intros Hmo Hcur Hinc.
  file_cases; intros [= <- <- <-]; state_simpl;
    repeat rewrite walked_app; cbn [walked flat_map app];
    rewrite ?app_nil_r;
    try (repeat split; auto; fail).
  - match goal with E : utf8_len _ = Some _ |- _ =>
      apply utf8_len_nonneg in E; rename E into Hn end.
    split; [exact Hn|]. split; [reflexivity|]. right.
    split; [reflexivity|]. now rewrite Hinc.
  - exfalso.
    match goal with E : utf8_len _ = Some _ |- _ =>
      apply utf8_len_nonneg in E end.
    match goal with E : (_ >=? _) = false |- _ =>
      rewrite Z.geb_leb in E; apply Z.leb_gt in E end.
    unfold max_output_size_bytes in *. lia.
Qed.

Lemma for_files_nonpositive mo mf root files st dirs st' dirs' :
  mo <= 0 -> 0 <= current_size_bytes st -> included_count st = O ->
  for_files mo mf root files st dirs = (st', dirs') ->
  0 <= current_size_bytes st' /\
  walked (trace st') = walked (trace st) /\
  (included_count st' <= 1)%nat.
Proof.
  intros Hmo. revert st dirs.
  induction files as [|f files IH]; simpl; intros st dirs Hcur Hinc.
  - intros [= <- <-]. repeat split; auto. lia.
  - destruct (process_file mo mf root f st dirs) as [[s d] fl] eqn:E.
    destruct (process_file_nonpositive _ _ _ _ _ _ _ _ _ Hmo Hcur Hinc E)
      as (Hc & Hw & Hi).
    destruct fl.
    + destruct Hi as [Hi|[? _]]; [|discriminate].
      intros H. destruct (IH _ _ Hc Hi H) as (Hc' & Hw' & Hi').
      repeat split; auto. congruence.
    + intros [= <- <-]. repeat split; auto.
      destruct Hi as [->|[_ ->]]; lia.
Qed.

(** With [max_output_size_kb] zero or negative the budget counts as
    already reached: the run looks at the top directory only (no
    subdirectory is walked) and includes at most one file. *)
Theorem nonpositive_budget_walks_only_the_top
        repo_name repo mo mf inc exd exf :
  mo <= 0 ->
  exists o,
    generate_repo_knowledge_file repo_name repo mo mf inc exd exf = Some o /\
    walked (trace (final o)) = [[]] /\
    (included_count (final o) <= 1)%nat.
Proof.
  intros Hmo. unfold generate_repo_knowledge_file, traverse.
  destruct repo as [n fs ds]. cbn [dir_size walk].
  destruct (visit mo mf [] (Dir n fs ds) (initial_state inc exd exf))
    as [[st dirs] fl] eqn:E.
  unfold visit in E. cbv zeta in E.
  destruct (for_files mo mf [] _ _ _) as [st1 dirs1] eqn:Ef.
  apply for_files_nonpositive in Ef as (Hc & Hw & Hi);
    [|exact Hmo|simpl; lia|reflexivity].
  replace (current_size_bytes st1 >=? max_output_size_bytes mo) with true in E
    by (symmetry; rewrite Z.geb_leb; apply Z.leb_le;
        unfold max_output_size_bytes; lia).
  injection E as <- <- <-.
  eexists. split; [reflexivity|]. cbn [final]. split; [|exact Hi].
  rewrite Hw. reflexivity.
Qed.

Lemma nonpositive_budget_walks_only_the_top_witness :
  exists o,
    generate_repo_knowledge_file (lit "repo") scenario_excluded 0 50
                                 None None None = Some o /\
    walked (trace (final o)) = [[]] /\
    (included_count (final o) <= 1)%nat.
Proof.
  apply (nonpositive_budget_walks_only_the_top (lit "repo") scenario_excluded
                                               0 50 None None None).
  lia.
Defined.
